(** * k8s-redeployer: the redeploy orchestration of [main.go]

    A shallow embedding of [redeployDatabasePods] (main.go, lines 100-135)
    and of the data it reads and builds.  The cluster API client and the
    wall clock are the two effects of the function: both are taken as
    operations on an abstract world [W], threaded explicitly, and every
    call the function performs is written to a chronological call log so
    that statements about "which calls were issued" are statements about
    that log.

    Go's [range] over a map visits the entries in an unspecified order; the
    order is a parameter [range] of the embedding, and theorems hold for
    every order that is a permutation of the map's entries. *)

From Stdlib Require Import ZArith Ascii String List.
From stdpp Require Import gmap strings list fin_maps.

Open Scope Z_scope.

(** ** Kubernetes objects, as far as [main.go] reads them *)

(** [metav1.LabelSelectorOperator] *)
Inductive LabelSelectorOperator :=
  | LabelSelectorOpIn
  | LabelSelectorOpNotIn
  | LabelSelectorOpExists
  | LabelSelectorOpDoesNotExist.

(** [metav1.LabelSelectorRequirement] *)
Record LabelSelectorRequirement := {
  Key : string;
  Operator : LabelSelectorOperator;
  Values : list string
}.

(** [metav1.LabelSelector] *)
Record LabelSelector := {
  MatchLabels : gmap string string;
  MatchExpressions : list LabelSelectorRequirement
}.

(** [appsv1.Deployment]: [d.Name] and [d.Spec.Selector] are the fields the
    function reads; the namespace is carried although the function never
    looks at it.  [d.Spec.Selector] is a pointer in Go; a Deployment of
    apps/v1 always has a selector, and the pointer is taken as set. *)
Record Deployment := {
  d_Name : string;
  d_Namespace : string;
  d_Selector : LabelSelector
}.

(** [corev1.Pod]: [pod.Name], [pod.Namespace], and the labels a selector is
    evaluated on. *)
Record Pod := {
  pod_Name : string;
  pod_Namespace : string;
  pod_Labels : gmap string string
}.

(** ** The result types of main.go (lines 25-32) *)

Record PodDetails := {
  pd_Name : string;
  pd_RestartedOn : string
}.

Record DeploymentDetails := {
  dd_Name : string;
  dd_Pods : list PodDetails
}.

(** [var output DeploymentDetails]: Go's zero value. *)
Definition zeroDeploymentDetails : DeploymentDetails :=
  {| dd_Name := EmptyString; dd_Pods := [] |}.

(** ** Library functions the code calls *)

(** Modelled from the spec: [strings.Contains] of Go's standard library,
    "case-sensitive substring match, not a regex": [substr] occurs in [s]
    at some position, compared byte by byte. *)
Fixpoint Contains (s substr : string) : bool :=
  if String.prefix substr s then true
  else match s with
       | EmptyString => false
       | String _ s' => Contains s' substr
       end.

(** A reading of the wall clock, [time.Now().UTC()], broken down into its
    calendar fields. *)
Record Time := {
  Year : Z;
  Month : Z;
  Day : Z;
  Hour : Z;
  Minute : Z;
  Second : Z
}.

Definition digitChar (d : Z) : ascii := ascii_of_N (48 + Z.to_N (d mod 10)).

(** [width] decimal digits of [x], most significant first, zero padded. *)
Fixpoint appendInt (width : nat) (x : Z) (acc : string) : string :=
  match width with
  | O => acc
  | S w => appendInt w (x / 10) (String (digitChar x) acc)
  end.

(** Modelled from the spec: [Time.Format(time.RFC3339)] of Go's standard
    library on a UTC time, "UTC timestamp, ISO-8601/RFC3339 string":
    the layout [2006-01-02T15:04:05Z07:00], whose zone is printed as [Z]
    for UTC. *)
Definition FormatRFC3339 (t : Time) : string :=
  appendInt 4 (Year t) ("-" +:+ appendInt 2 (Month t) ("-" +:+ appendInt 2 (Day t)
    ("T" +:+ appendInt 2 (Hour t) (":" +:+ appendInt 2 (Minute t)
      (":" +:+ appendInt 2 (Second t) "Z"))))).

(** The calendar fields a clock reading can have (years of four digits). *)
Definition validTime (t : Time) : bool :=
  (0 <=? Year t) && (Year t <=? 9999) &&
  (1 <=? Month t) && (Month t <=? 12) &&
  (1 <=? Day t) && (Day t <=? 31) &&
  (0 <=? Hour t) && (Hour t <=? 23) &&
  (0 <=? Minute t) && (Minute t <=? 59) &&
  (0 <=? Second t) && (Second t <=? 59).

Definition isDigit (c : ascii) : bool :=
  let n := N_of_ascii c in ((48 <=? n) && (n <=? 57))%N.

Definition digitValue (c : ascii) : Z := Z.of_N (N_of_ascii c) - 48.

Definition twoDigits (a b : ascii) : Z := 10 * digitValue a + digitValue b.

Definition between (lo hi x : Z) : bool := (lo <=? x) && (x <=? hi).

(** An RFC3339 date-time in UTC: the shape [dddd-dd-ddTdd:dd:ddZ] with the
    month, day, hour, minute and second in their ranges (a second of 60 is
    the leap second RFC3339 admits). *)
Definition isRFC3339UTC (s : string) : bool :=
  match list_ascii_of_string s with
  | [y1; y2; y3; y4; d1; m1; m2; d2; a1; a2; sep; h1; h2; c1; n1; n2; c2; s1; s2; z] =>
      forallb isDigit [y1; y2; y3; y4; m1; m2; a1; a2; h1; h2; n1; n2; s1; s2]
      && Ascii.eqb d1 "-" && Ascii.eqb d2 "-" && Ascii.eqb sep "T"
      && Ascii.eqb c1 ":" && Ascii.eqb c2 ":" && Ascii.eqb z "Z"
      && between 1 12 (twoDigits m1 m2) && between 1 31 (twoDigits a1 a2)
      && between 0 23 (twoDigits h1 h2) && between 0 59 (twoDigits n1 n2)
      && between 0 60 (twoDigits s1 s2)
  | _ => false
  end.

(** ** The cluster API client and the clock *)

(** A Go [error], kept as its message [err.Error()]. *)
Definition error := string.

(** One call the function makes, with what it was given and what came back. *)
Inductive Call :=
  | CallDeploymentsList (r : error + list Deployment)
  | CallPodsList (labelSelector : string) (r : error + list Pod)
  | CallNow (t : Time)
  | CallDeploymentsPatch (namespace name data : string) (r : option error).

(** What a call of [redeployDatabasePods], or of one of its loops, leaves
    behind: the two returned values, the calls made in the order they were
    made, and the world after them. *)
Record Run {W : Type} := {
  ret : DeploymentDetails;
  err : option error;
  calls : list Call;
  final : W
}.
Arguments Run : clear implicits.

Definition logCall {W} (c : Call) (r : Run W) : Run W :=
  {| ret := ret r; err := err r; calls := c :: calls r; final := final r |}.

(** The capabilities consumed by the function:
    - [DeploymentsList]: [k.AppsV1().Deployments(ns).List] with the empty
      namespace, that is, over all namespaces, and empty [ListOptions];
    - [PodsList label]: [k.CoreV1().Pods(ns).List] with the empty namespace
      and [ListOptions{LabelSelector: label}];
    - [DeploymentsPatch ns name data]:
      [k.AppsV1().Deployments(ns).Patch(ctx, name, StrategicMergePatchType, data, PatchOptions{})],
      of which the function keeps the error only;
    - [Now]: [time.Now().UTC()]. *)
Record Clientset {W : Type} := {
  DeploymentsList : W → (error + list Deployment) * W;
  PodsList : string → W → (error + list Pod) * W;
  DeploymentsPatch : string → string → string → W → option error * W;
  Now : W → Time * W
}.
Arguments Clientset : clear implicits.

(** The order in which [for ... := range deploymentsMap] visits a map. *)
Definition MapRange := gmap string string → list (string * string).

(** Go visits every entry exactly once, in an order of its choosing. *)
Definition rangeOrder (range : MapRange) : Prop :=
  ∀ m, range m ≡ₚ map_to_list m.

(** ** Selector formatting *)

Definition formatRequirement (r : LabelSelectorRequirement) : string :=
  match Operator r with
  | LabelSelectorOpIn => Key r +:+ " in (" +:+ String.concat "," (Values r) +:+ ")"
  | LabelSelectorOpNotIn => Key r +:+ " notin (" +:+ String.concat "," (Values r) +:+ ")"
  | LabelSelectorOpExists => Key r
  | LabelSelectorOpDoesNotExist => "!" +:+ Key r
  end.

Definition formatMatchLabel (kv : string * string) : string :=
  kv.1 +:+ "=" +:+ kv.2.

(** Modelled from the spec: [metav1.FormatLabelSelector] of
    k8s.io/apimachinery, which is not part of this repository.  The spec
    gives its output as the canonical selector string: "equality as
    key=value, set membership as key in (v1,v2), negation as key notin
    (...), existence as bare key / negated as !key", one term per
    [matchLabels] entry and per [matchExpressions] element, separated by
    commas. *)
Definition FormatLabelSelector (sel : LabelSelector) : string :=
  String.concat ","
    (map formatMatchLabel (map_to_list (MatchLabels sel))
     ++ map formatRequirement (MatchExpressions sel)).

(** ** redeployDatabasePods *)

(** Lines 107-111, one iteration: the entry for [d.Name] is written, and
    overwritten, whenever the name contains "database". *)
Definition collectDeployment (deploymentsMap : gmap string string) (d : Deployment)
  : gmap string string :=
  if Contains (d_Name d) "database"
  then <[d_Name d := FormatLabelSelector (d_Selector d)]> deploymentsMap
  else deploymentsMap.

(** Lines 106-111: [deploymentsMap], built from [deployments.Items]. *)
Definition collectDeployments (items : list Deployment) : gmap string string :=
  fold_left collectDeployment items ∅.

(** The double-quote character of the template. *)
Definition dquote : string := String "034"%char EmptyString.

Definition quoted (s : string) : string := dquote +:+ s +:+ dquote.

(** Line 121: [fmt.Sprintf] of the raw-string template
    [{"spec":{"template":{"metadata":{"annotations":{"restarted_at":"%s"}}}}}];
    [%s] copies the timestamp as it is. *)
Definition patchData (timeStamp : string) : string :=
  "{" +:+ quoted "spec" +:+ ":{" +:+ quoted "template" +:+ ":{" +:+ quoted "metadata"
  +:+ ":{" +:+ quoted "annotations" +:+ ":{" +:+ quoted "restarted_at" +:+ ":"
  +:+ quoted timeStamp +:+ "}}}}}".

(** Lines 126-129: the [PodDetails] recorded for a patched pod. *)
Definition podDetail (pod : Pod) (timeStamp : string) : PodDetails :=
  {| pd_Name := pod_Name pod; pd_RestartedOn := timeStamp |}.

(** The bytes of the template of line 121 that precede and that follow its
    [%s], as character codes. *)
Definition templateHead : list nat :=
  [123; 34; 115; 112; 101; 99; 34; 58; 123; 34; 116; 101; 109; 112; 108; 97; 116; 101;
   34; 58; 123; 34; 109; 101; 116; 97; 100; 97; 116; 97; 34; 58; 123; 34; 97; 110; 110;
   111; 116; 97; 116; 105; 111; 110; 115; 34; 58; 123; 34; 114; 101; 115; 116; 97; 114;
   116; 101; 100; 95; 97; 116; 34; 58; 34]%nat.

Definition templateTail : list nat := [34; 125; 125; 125; 125; 125]%nat.

Definition ofBytes (codes : list nat) : string :=
  string_of_list_ascii (ascii_of_nat <$> codes).

Section Redeploy.
Context {W : Type}.
Variable range : MapRange.
Variable k : Clientset W.

(** Falling out of a loop body, or of a loop, with [output] as it stands. *)
Definition proceed (output : DeploymentDetails) (w : W) : Run W :=
  {| ret := output; err := None; calls := []; final := w |}.

(** [return output, fmt.Errorf(...)]. *)
Definition fail (output : DeploymentDetails) (msg : error) (w : W) : Run W :=
  {| ret := output; err := Some msg; calls := []; final := w |}.

(** Sequencing inside a loop: a [return] ends the function, otherwise the
    rest of the loop goes on from the output and the world reached. *)
Definition andThen (r : Run W) (rest : DeploymentDetails → W → Run W) : Run W :=
  match err r with
  | Some _ => r
  | None =>
      let r' := rest (ret r) (final r) in
      {| ret := ret r'; err := err r'; calls := calls r ++ calls r'; final := final r' |}
  end.

(** Lines 120-130, the body of the loop over [pods.Items]: read the clock,
    patch the Deployment named [deploymentName] in the pod's namespace,
    and on success append the pod to [output.Pods]; a failed patch
    returns [output] as it stands together with the error. *)
Definition patchPod (deploymentName : string) (pod : Pod)
    (output : DeploymentDetails) (w : W) : Run W :=
  let '(t, w1) := Now k w in
  let timeStamp := FormatRFC3339 t in
  let data := patchData timeStamp in
  let '(e, w2) := DeploymentsPatch k (pod_Namespace pod) deploymentName data w1 in
  logCall (CallNow t)
    (logCall (CallDeploymentsPatch (pod_Namespace pod) deploymentName data e)
      match e with
      | Some msg =>
          fail output ("failed to patch deployment " +:+ deploymentName
                       +:+ " for pod " +:+ pod_Name pod +:+ ": " +:+ msg) w2
      | None =>
          proceed {| dd_Name := dd_Name output;
                     dd_Pods := dd_Pods output ++ [podDetail pod timeStamp] |} w2
      end).

(** Lines 119-131: [for _, pod := range pods.Items]. *)
Fixpoint rangePods (deploymentName : string) (items : list Pod)
    (output : DeploymentDetails) (w : W) : Run W :=
  match items with
  | [] => proceed output w
  | pod :: items' =>
      andThen (patchPod deploymentName pod output w) (rangePods deploymentName items')
  end.

(** Lines 114-131, the body of the loop over [deploymentsMap]: list the
    pods the selector string matches, overwrite [output.Name], patch once
    for every pod listed. *)
Definition redeployOne (deploymentName label : string)
    (output : DeploymentDetails) (w : W) : Run W :=
  let '(r, w1) := PodsList k label w in
  logCall (CallPodsList label r)
    match r with
    | inl msg =>
        fail output ("failed to list pods for deployment " +:+ deploymentName
                     +:+ ": " +:+ msg) w1
    | inr items =>
        rangePods deploymentName items
          {| dd_Name := deploymentName; dd_Pods := dd_Pods output |} w1
    end.

(** Lines 113-133: [for deploymentName, label := range deploymentsMap],
    visiting [entries] in their order. *)
Fixpoint rangeDeployments (entries : list (string * string))
    (output : DeploymentDetails) (w : W) : Run W :=
  match entries with
  | [] => proceed output w
  | (deploymentName, label) :: entries' =>
      andThen (redeployOne deploymentName label output w) (rangeDeployments entries')
  end.

(** Lines 100-135. *)
Definition redeployDatabasePods (w : W) : Run W :=
  let output := zeroDeploymentDetails in
  let '(r, w1) := DeploymentsList k w in
  logCall (CallDeploymentsList r)
    match r with
    | inl msg => fail output ("failed to list deployment: " +:+ msg) w1
    | inr items => rangeDeployments (range (collectDeployments items)) output w1
    end.

End Redeploy.

(** ** Reading the call log *)

(** The patch calls of a log: namespace, Deployment name, patch document. *)
Definition patchCalls (cs : list Call) : list (string * string * string) :=
  omap (λ c, match c with
             | CallDeploymentsPatch ns name data _ => Some (ns, name, data)
             | _ => None
             end) cs.

(** The patch calls of a log that name the Deployment [name]. *)
Definition patchCallsFor (name : string) (cs : list Call) : list (string * string * string) :=
  List.filter (λ c, String.eqb c.1.2 name) (patchCalls cs).

(** The clock readings of a log. *)
Definition nowCalls (cs : list Call) : list Time :=
  omap (λ c, match c with CallNow t => Some t | _ => None end) cs.

(** The pod-list calls of a log: the selector string sent and the answer. *)
Definition podsListCalls (cs : list Call) : list (string * (error + list Pod)) :=
  omap (λ c, match c with CallPodsList label r => Some (label, r) | _ => None end) cs.

(** The pods a pod-list answer holds. *)
Definition listedPods (r : error + list Pod) : list Pod :=
  match r with inl _ => [] | inr items => items end.

(** The pods listed over a whole log, in the order they were listed. *)
Definition allListed (cs : list Call) : list Pod :=
  concat (listedPods <$> (podsListCalls cs).*2).

(** ** Patch documents as JSON *)

#[warnings="-register-all"]
Inductive json :=
  | JString (s : string)
  | JObject (fields : list (string * json)).

(** Compact rendering, for strings that need no escape. *)
Fixpoint render (j : json) : string :=
  match j with
  | JString s => quoted s
  | JObject fields =>
      "{" +:+ String.concat "," (map (λ kv, quoted kv.1 +:+ ":" +:+ render kv.2) fields) +:+ "}"
  end.

(** The document that sets [spec.template.metadata.annotations.restarted_at]
    and nothing else. *)
Definition restartedAtPatch (timeStamp : string) : json :=
  JObject [("spec", JObject [("template", JObject [("metadata",
    JObject [("annotations", JObject [("restarted_at", JString timeStamp)])])])])].

(** ** Selector strings on the server side *)

(** One term of a selector string. *)
Inductive Requirement :=
  | ReqEquals (key value : string)
  | ReqIn (key : string) (values : list string)
  | ReqNotIn (key : string) (values : list string)
  | ReqExists (key : string)
  | ReqDoesNotExist (key : string).

(** The characters that end an identifier: the grammar's symbols and blank. *)
Definition isDelimiter (c : ascii) : bool :=
  existsb (Ascii.eqb c) ["," ; "=" ; "!" ; "(" ; ")" ; "<" ; ">" ; " "]%char.

Fixpoint allChars (p : ascii → bool) (s : string) : bool :=
  match s with
  | EmptyString => true
  | String c s' => p c && allChars p s'
  end.

Definition isIdentifier (s : string) : bool :=
  allChars (λ c, negb (isDelimiter c)) s.

(** The longest identifier [s] starts with, and what follows it. *)
Fixpoint scanIdentifier (s : string) : string * string :=
  match s with
  | EmptyString => (EmptyString, EmptyString)
  | String c s' =>
      if isDelimiter c then (EmptyString, s)
      else let '(id, rest) := scanIdentifier s' in (String c id, rest)
  end.

Fixpoint stripPrefix (p s : string) : option string :=
  match p, s with
  | EmptyString, _ => Some s
  | String c p', String d s' => if Ascii.eqb c d then stripPrefix p' s' else None
  | String _ _, EmptyString => None
  end.

(** The terms of a selector string: its pieces between the commas that are
    not inside parentheses. *)
Fixpoint splitTerms (inParens : bool) (s : string) : list string :=
  match s with
  | EmptyString => [EmptyString]
  | String c s' =>
      if Ascii.eqb c "," && negb inParens then EmptyString :: splitTerms false s'
      else
        let inParens' :=
          if Ascii.eqb c "(" then true
          else if Ascii.eqb c ")" then false else inParens in
        match splitTerms inParens' s' with
        | t :: ts => String c t :: ts
        | [] => []
        end
  end.

(** The values of [v1,v2,...)] up to the closing parenthesis, and what
    follows it. *)
Fixpoint parseValues (s : string) : option (list string * string) :=
  match s with
  | EmptyString => None
  | String c s' =>
      if Ascii.eqb c ")" then Some ([EmptyString], s')
      else match parseValues s' with
           | None => None
           | Some (vs, rest) =>
               if Ascii.eqb c "," then Some (EmptyString :: vs, rest)
               else if isDelimiter c then None
               else match vs with
                    | v :: vs' => Some (String c v :: vs', rest)
                    | [] => None
                    end
           end
  end.

Definition parseSet (mk : list string → Requirement) (s : string) : option Requirement :=
  match parseValues s with
  | Some (vs, EmptyString) => Some (mk vs)
  | _ => None
  end.

(** One term: [!key], [key], [key=value], [key in (...)], [key notin (...)]. *)
Definition parseTerm (t : string) : option Requirement :=
  match stripPrefix "!" t with
  | Some key =>
      if isIdentifier key && negb (String.eqb key EmptyString)
      then Some (ReqDoesNotExist key) else None
  | None =>
      let '(key, rest) := scanIdentifier t in
      if String.eqb key EmptyString then None
      else if String.eqb rest EmptyString then Some (ReqExists key)
      else match stripPrefix "=" rest with
           | Some v => if isIdentifier v then Some (ReqEquals key v) else None
           | None =>
               match stripPrefix " in (" rest with
               | Some r => parseSet (ReqIn key) r
               | None =>
                   match stripPrefix " notin (" rest with
                   | Some r => parseSet (ReqNotIn key) r
                   | None => None
                   end
               end
           end
  end.

Fixpoint parseTerms (ts : list string) : option (list Requirement) :=
  match ts with
  | [] => Some []
  | t :: ts' =>
      match parseTerm t, parseTerms ts' with
      | Some r, Some rs => Some (r :: rs)
      | _, _ => None
      end
  end.

(** Modelled from the spec: the label-selector parser of
    k8s.io/apimachinery that the API server applies to
    [ListOptions.LabelSelector], which is not part of this repository; "the
    canonical label-selector string grammar: equality as key=value, set
    membership as key in (v1,v2), negation as key notin (...), existence as
    bare key / negated as !key".  The empty string is the selector without
    terms. *)
Definition parseSelector (s : string) : option (list Requirement) :=
  if String.eqb s EmptyString then Some [] else parseTerms (splitTerms false s).

Definition hasValue (labels : gmap string string) (key : string) (values : list string) : bool :=
  match labels !! key with
  | Some v => bool_decide (v ∈ values)
  | None => false
  end.

Definition hasKey (labels : gmap string string) (key : string) : bool :=
  bool_decide (is_Some (labels !! key)).

(** Whether a label set satisfies one term. *)
Definition requirementMatches (labels : gmap string string) (r : Requirement) : bool :=
  match r with
  | ReqEquals key v => hasValue labels key [v]
  | ReqIn key vs => hasValue labels key vs
  | ReqNotIn key vs => negb (hasValue labels key vs)
  | ReqExists key => hasKey labels key
  | ReqDoesNotExist key => negb (hasKey labels key)
  end.

(** Filtering by a selector string: [None] when the string does not parse. *)
Definition selectorStringMatches (s : string) (labels : gmap string string) : option bool :=
  match parseSelector s with
  | Some rs => Some (forallb (requirementMatches labels) rs)
  | None => None
  end.

(** ** Structured selectors *)

(** The term a [matchExpressions] element stands for. *)
Definition requirementOf (r : LabelSelectorRequirement) : Requirement :=
  match Operator r with
  | LabelSelectorOpIn => ReqIn (Key r) (Values r)
  | LabelSelectorOpNotIn => ReqNotIn (Key r) (Values r)
  | LabelSelectorOpExists => ReqExists (Key r)
  | LabelSelectorOpDoesNotExist => ReqDoesNotExist (Key r)
  end.

(** The terms a structured selector stands for, in the order
    [FormatLabelSelector] writes them. *)
Definition requirementsOf (sel : LabelSelector) : list Requirement :=
  map (λ kv, ReqEquals kv.1 kv.2) (map_to_list (MatchLabels sel))
  ++ map requirementOf (MatchExpressions sel).

(** Whether a label set satisfies one [matchExpressions] element. *)
Definition expressionMatches (labels : gmap string string) (r : LabelSelectorRequirement) : bool :=
  match Operator r with
  | LabelSelectorOpIn => hasValue labels (Key r) (Values r)
  | LabelSelectorOpNotIn => negb (hasValue labels (Key r) (Values r))
  | LabelSelectorOpExists => hasKey labels (Key r)
  | LabelSelectorOpDoesNotExist => negb (hasKey labels (Key r))
  end.

(** Whether a label set satisfies a structured selector: every [matchLabels]
    pair is carried by the labels and every [matchExpressions] element holds. *)
Definition LabelSelectorMatches (sel : LabelSelector) (labels : gmap string string) : bool :=
  forallb (λ kv, bool_decide (labels !! kv.1 = Some kv.2)) (map_to_list (MatchLabels sel))
  && forallb (expressionMatches labels) (MatchExpressions sel).

Definition validKey (key : string) : bool :=
  isIdentifier key && negb (String.eqb key EmptyString).

Definition validExpression (r : LabelSelectorRequirement) : bool :=
  validKey (Key r) &&
  match Operator r with
  | LabelSelectorOpIn | LabelSelectorOpNotIn =>
      forallb isIdentifier (Values r) && negb (bool_decide (Values r = []))
  | LabelSelectorOpExists | LabelSelectorOpDoesNotExist => true
  end.

(** The selectors the API accepts: keys are non-empty names, keys and values
    hold none of the grammar's symbols, [In] and [NotIn] have a value. *)
Definition validSelector (sel : LabelSelector) : bool :=
  forallb (λ kv, validKey kv.1 && isIdentifier kv.2) (map_to_list (MatchLabels sel))
  && forallb validExpression (MatchExpressions sel).

(** ** Notions used to reason about selector strings *)

(** Characters that neither separate terms nor open or close a value list. *)
Definition isPlain (c : ascii) : bool :=
  negb (Ascii.eqb c ",") && negb (Ascii.eqb c "(") && negb (Ascii.eqb c ")").

(** Characters that neither open nor close a value list. *)
Definition isValueChar (c : ascii) : bool :=
  negb (Ascii.eqb c "(") && negb (Ascii.eqb c ")").

(** A term that [splitTerms] cuts off whole, that is not empty, and that
    [parseTerm] reads as [req]. *)
Definition goodTerm (t : string) (req : Requirement) : Prop :=
  t ≠ EmptyString
  ∧ parseTerm t = Some req
  ∧ ∀ rest t' ts, splitTerms false rest = t' :: ts →
      splitTerms false (t +:+ rest) = (t +:+ t') :: ts.

(** ** A cluster to run the function against *)

(** An in-memory stand-in for the API server and the clock, in the manner of
    client-go's fake clientset, on which the function can be evaluated. *)
Module Fake.

(** An in-memory cluster: its Deployments and Pods, a clock counting
    seconds, and the number of API requests the server still answers
    before it becomes unavailable. *)
Record Cluster := {
  c_Deployments : list Deployment;
  c_Pods : list Pod;
  c_Clock : Z;
  c_Budget : nat
}.

Definition spend (c : Cluster) : Cluster :=
  {| c_Deployments := c_Deployments c; c_Pods := c_Pods c;
     c_Clock := c_Clock c; c_Budget := pred (c_Budget c) |}.

Definition unavailable : error := "the server is currently unable to handle the request".

Definition deploymentsList (c : Cluster) : (error + list Deployment) * Cluster :=
  match c_Budget c with
  | O => (inl unavailable, c)
  | S _ => (inr (c_Deployments c), spend c)
  end.

(** Pods of all namespaces whose labels satisfy the selector string. *)
Definition podsList (label : string) (c : Cluster) : (error + list Pod) * Cluster :=
  match c_Budget c with
  | O => (inl unavailable, c)
  | S _ =>
      match parseSelector label with
      | None => (inl "unable to parse requirement", spend c)
      | Some rs =>
          (inr (List.filter (λ p, forallb (requirementMatches (pod_Labels p)) rs) (c_Pods c)),
           spend c)
      end
  end.

(** The patch lands when a Deployment of that name lives in that namespace. *)
Definition deploymentsPatch (ns name data : string) (c : Cluster) : option error * Cluster :=
  match c_Budget c with
  | O => (Some unavailable, c)
  | S _ =>
      if existsb (λ d, String.eqb (d_Namespace d) ns && String.eqb (d_Name d) name)
           (c_Deployments c)
      then (None, spend c)
      else (Some ("deployments.apps " +:+ name +:+ " not found"), spend c)
  end.

(** The clock shows 2024-01-01T00:mm:ssZ and advances a second per reading. *)
Definition now (c : Cluster) : Time * Cluster :=
  ({| Year := 2024; Month := 1; Day := 1; Hour := 0;
      Minute := (c_Clock c / 60) mod 60; Second := c_Clock c mod 60 |},
   {| c_Deployments := c_Deployments c; c_Pods := c_Pods c;
      c_Clock := c_Clock c + 1; c_Budget := c_Budget c |}).

Definition clientset : Clientset Cluster :=
  {| DeploymentsList := deploymentsList; PodsList := podsList;
     DeploymentsPatch := deploymentsPatch; Now := now |}.

Definition selectApp (app : string) : LabelSelector :=
  {| MatchLabels := {[ "app" := app ]}; MatchExpressions := [] |}.

Definition deployment (ns name app : string) : Deployment :=
  {| d_Name := name; d_Namespace := ns; d_Selector := selectApp app |}.

Definition pod (ns name app : string) : Pod :=
  {| pod_Name := name; pod_Namespace := ns; pod_Labels := {[ "app" := app ]} |}.

(** One matching Deployment with two pods, next to a Deployment that does
    not match. *)
Definition twoPods : Cluster :=
  {| c_Deployments := [deployment "prod" "database" "db"; deployment "prod" "web-frontend" "web"];
     c_Pods := [pod "prod" "database-0" "db"; pod "prod" "web-0" "web"; pod "prod" "database-1" "db"];
     c_Clock := 0; c_Budget := 100 |}.

(** The cluster of the spec's end-to-end scenario, one pod per Deployment. *)
Definition endToEnd (budget : nat) : Cluster :=
  {| c_Deployments := [deployment "prod" "database-primary" "primary";
                       deployment "prod" "web-frontend" "web";
                       deployment "prod" "database-cache" "cache"];
     c_Pods := [pod "prod" "primary-0" "primary"; pod "prod" "web-0" "web";
                pod "prod" "cache-0" "cache"];
     c_Clock := 0; c_Budget := budget |}.

(** Three matching Deployments with a pod each, for the spec's fail-fast
    scenario. *)
Definition threeDatabases (budget : nat) : Cluster :=
  {| c_Deployments := [deployment "prod" "database-a" "a"; deployment "prod" "database-b" "b";
                       deployment "prod" "database-c" "c"];
     c_Pods := [pod "prod" "a-0" "a"; pod "prod" "b-0" "b"; pod "prod" "c-0" "c"];
     c_Clock := 0; c_Budget := budget |}.

(** A matching Deployment scaled to zero. *)
Definition noPods : Cluster :=
  {| c_Deployments := [deployment "prod" "database" "db"];
     c_Pods := [pod "prod" "web-0" "web"];
     c_Clock := 0; c_Budget := 100 |}.

(** Two Deployments of the same name in two namespaces. *)
Definition sameName : Cluster :=
  {| c_Deployments := [deployment "blue" "database" "db-blue";
                       deployment "green" "database" "db-green"];
     c_Pods := [pod "blue" "b-0" "db-blue"; pod "green" "g-0" "db-green"];
     c_Clock := 0; c_Budget := 100 |}.

End Fake.

(** ** More ways to read the call log *)

(** Whether a call came back with an error; the clock has none to give. *)
Definition callFailed (c : Call) : bool :=
  match c with
  | CallDeploymentsList (inl _) | CallPodsList _ (inl _)
  | CallDeploymentsPatch _ _ _ (Some _) => true
  | _ => false
  end.

(** The patch calls of a log that came back without error. *)
Definition landedPatches (cs : list Call) : list (string * string * string) :=
  omap (λ c, match c with
             | CallDeploymentsPatch ns name data None => Some (ns, name, data)
             | _ => None
             end) cs.

(** The patch documents the [PodDetails] of an output stand for. *)
Definition recordedDocuments (output : DeploymentDetails) : list string :=
  (λ pd, patchData (pd_RestartedOn pd)) <$> dd_Pods output.

(** Whether every clock reading of a log is followed at once by a patch call
    that carries it, and every patch call follows such a reading. *)
Fixpoint clockPaired (cs : list Call) : bool :=
  match cs with
  | [] => true
  | CallNow t :: CallDeploymentsPatch _ _ data _ :: cs' =>
      String.eqb data (patchData (FormatRFC3339 t)) && clockPaired cs'
  | CallNow _ :: _ => false
  | CallDeploymentsPatch _ _ _ _ :: _ => false
  | _ :: cs' => clockPaired cs'
  end.

(** A run whose log stops at the first failed call: without error no call
    failed, with an error the last call failed and none before it. *)
Definition failStop {W} (r : Run W) : Prop :=
  match err r with
  | None => Forall (λ c, callFailed c = false) (calls r)
  | Some _ =>
      ∃ cs c, calls r = cs ++ [c]
              ∧ Forall (λ c, callFailed c = false) cs ∧ callFailed c = true
  end.

(** A piece of a run that started from [output] and extended its [Pods] by
    the patches that landed in it. *)
Definition tracksLanded {W} (output : DeploymentDetails) (r : Run W) : Prop :=
  recordedDocuments (ret r) = recordedDocuments output ++ (landedPatches (calls r)).*2.

(** ** The entry point and the client construction (lines 23, 34-96) *)

(** Line 23: [const k8sContext], shipped empty. *)
Definition k8sContext : string := EmptyString.

(** [slog.LevelInfo] and [slog.LevelError], the two levels the program logs at. *)
Inductive Level :=
  | LevelInfo
  | LevelError.

(** What the program hands to its logger in one call: the level, the
    message, and the key-value pairs attached by [With]; an [error] value is
    kept as its message.  The logger is the one [NewLogger] builds (lines
    55-61), a slog text handler on standard output; how it prints a record
    is left to slog. *)
Record LogRecord := {
  lr_Level : Level;
  lr_Message : string;
  lr_Attrs : list (string * string)
}.

Definition logInfo (attrs : list (string * string)) (msg : string) : LogRecord :=
  {| lr_Level := LevelInfo; lr_Message := msg; lr_Attrs := attrs |}.

Definition logError (attrs : list (string * string)) (msg : string) : LogRecord :=
  {| lr_Level := LevelError; lr_Message := msg; lr_Attrs := attrs |}.

(** [clientcmdapi.Context]: a named pairing of cluster, user and namespace. *)
Record KubeContext := {
  ctx_Cluster : string;
  ctx_AuthInfo : string;
  ctx_Namespace : string
}.

(** [clientcmdapi.Config]: the two fields the code touches, and the rest of
    the kubeconfig (clusters, users, ...) carried along untouched. *)
Record Config {Other : Type} := {
  Contexts : gmap string KubeContext;
  CurrentContext : string;
  cfg_Other : Other
}.
Arguments Config : clear implicits.

(** How a function ends: it returns, or the process exits inside it. *)
Inductive Outcome (A : Type) :=
  | Returned (a : A)
  | Exited (code : Z).
Arguments Returned {A} a.
Arguments Exited {A} code.

(** What [NewK8sClient] draws on outside the program:
    - [HomeDir]: [homedir.HomeDir()];
    - [JoinKubeConfig home]: [filepath.Join(home, ".kube", "config")];
    - [CommandLine]: what [flag.Parse()] makes of the command line, either
      the exit status with which it ends the process on a command line it
      rejects, or the value given to [-kubeconfig], if any;
    - [LoadFromFile]: [clientcmd.LoadFromFile];
    - [ClientConfig config]:
      [clientcmd.NewDefaultClientConfig(config, &ConfigOverrides{}).ClientConfig()];
    - [NewForConfig]: [kubernetes.NewForConfig], the client being the
      operations [redeployDatabasePods] consumes. *)
Record Host {W Other RestConfig : Type} := {
  HomeDir : string;
  JoinKubeConfig : string → string;
  CommandLine : Z + option string;
  LoadFromFile : string → error + Config Other;
  ClientConfig : Config Other → error + RestConfig;
  NewForConfig : RestConfig → error + Clientset W
}.
Arguments Host : clear implicits.

(** What a run of [main] leaves behind: the records logged, the exit status
    of the process, the API calls made, and the world after them. *)
Record MainRun {W : Type} := {
  m_Logs : list LogRecord;
  m_Exit : Z;
  m_Calls : list Call;
  m_Final : W
}.
Arguments MainRun : clear implicits.

Section Main.
Context {W Other RestConfig : Type}.
Variable range : MapRange.
Variable h : Host W Other RestConfig.

(** Line 85: [config.CurrentContext = k8sContext]. *)
Definition selectContext (config : Config Other) : Config Other :=
  {| Contexts := Contexts config; CurrentContext := k8sContext;
     cfg_Other := cfg_Other config |}.

(** Lines 67-73: the record logged and the default of the [-kubeconfig]
    flag, by whether a home directory is known. *)
Definition kubeconfigDefault : LogRecord * string :=
  if String.eqb (HomeDir h) EmptyString
  then (logInfo [] "kubeconfig not found. creating it in '$HOME/.kube/config'", EmptyString)
  else (logInfo [] "kubeconfig found in default location: '$HOME/.kube/config'",
        JoinKubeConfig h (HomeDir h)).

(** Lines 76-95: from the kubeconfig path to the client, [(nil, err)] being
    [inl err] and [(client, nil)] being [inr client]. *)
Definition loadClient (kubeconfig : string) : error + Clientset W :=
  match LoadFromFile h kubeconfig with
  | inl e => inl ("failed to load kubeconfig from file " +:+ e)
  | inr config =>
      match Contexts config !! k8sContext with
      | None => inl ("kubecontext does not exist in the kubeconfig " +:+ k8sContext)
      | Some _ =>
          match ClientConfig h (selectContext config) with
          | inl e => inl e
          | inr K8sConfig =>
              match NewForConfig h K8sConfig with
              | inl e => inl e
              | inr client => inr client
              end
          end
      end
  end.

(** Lines 65-96: the records logged, and how the function ends. *)
Definition NewK8sClient : list LogRecord * Outcome (error + Clientset W) :=
  let '(record, def) := kubeconfigDefault in
  match CommandLine h with
  | inl code => ([record], Exited code)
  | inr given => ([record], Returned (loadClient (default def given)))
  end.

(** Lines 49-51: one record per element of [d.Pods]. *)
Definition logPod (dd : PodDetails) : LogRecord :=
  logInfo [("pod", pd_Name dd); ("restarted_on", pd_RestartedOn dd)]
    "sucessfully redeployed pod".

(** Lines 34-52.  [os.Exit(1)] ends the process with status 1, falling off
    the end of [main] with status 0. *)
Definition main (w : W) : MainRun W :=
  let '(records, outcome) := NewK8sClient in
  match outcome with
  | Exited code => {| m_Logs := records; m_Exit := code; m_Calls := []; m_Final := w |}
  | Returned (inl e) =>
      {| m_Logs := records ++ [logError [("error", e)] "failed to initialize NewK8sClient()"];
         m_Exit := 1; m_Calls := []; m_Final := w |}
  | Returned (inr k8sClient) =>
      let created :=
        logInfo [("context", k8sContext)] "k8s client created and context sucessfully loaded" in
      let r := redeployDatabasePods range k8sClient w in
      match err r with
      | Some e =>
          {| m_Logs := records ++ [created; logError [("error", e)] "failed to redeploy pods"];
             m_Exit := 1; m_Calls := calls r; m_Final := final r |}
      | None =>
          let d := ret r in
          {| m_Logs := records
               ++ [created; logInfo [("deployment", dd_Name d)] "sucessfully patched deployment"]
               ++ map logPod (dd_Pods d);
             m_Exit := 0; m_Calls := calls r; m_Final := final r |}
      end
  end.

End Main.

(** The records of a log that report a redeployed pod. *)
Definition podRecords (records : list LogRecord) : list LogRecord :=
  List.filter (λ lr, String.eqb (lr_Message lr) "sucessfully redeployed pod") records.

(** ** A host to run the entry point on *)

Module FakeHost.

Definition context : KubeContext :=
  {| ctx_Cluster := "kind"; ctx_AuthInfo := "admin"; ctx_Namespace := "default" |}.

(** A kubeconfig with the contexts of the given names. *)
Definition kubeconfig (names : list string) : Config unit :=
  {| Contexts := list_to_map ((λ n, (n, context)) <$> names);
     CurrentContext := "kind"; cfg_Other := tt |}.

(** A host with a home directory and no flag on the command line, whose
    kubeconfig in the default place has the contexts [names]; the client it
    builds is the in-memory cluster's. *)
Definition host (names : list string) : Host Fake.Cluster unit (Config unit) :=
  {| HomeDir := "/home/ops";
     JoinKubeConfig := λ home, home +:+ "/.kube/config";
     CommandLine := inr None;
     LoadFromFile := λ path,
       if String.eqb path "/home/ops/.kube/config" then inr (kubeconfig names)
       else inl ("open " +:+ path +:+ ": no such file or directory");
     ClientConfig := λ config, inr config;
     NewForConfig := λ _, inr Fake.clientset |}.

(** A cluster none of whose Deployments matches. *)
Definition noMatch : Fake.Cluster :=
  {| Fake.c_Deployments := [Fake.deployment "prod" "web-frontend" "web";
                            Fake.deployment "prod" "cache" "cache"];
     Fake.c_Pods := [Fake.pod "prod" "web-0" "web"; Fake.pod "prod" "cache-0" "cache"];
     Fake.c_Clock := 0; Fake.c_Budget := 100 |}.

End FakeHost.

(** * Facts about the loops *)

Section RunFacts.
Context {W : Type}.
Implicit Types (k : Clientset W) (r : Run W) (w : W) (output : DeploymentDetails).

Lemma run_eta r : {| ret := ret r; err := err r; calls := calls r; final := final r |} = r.
Proof. by destruct r. Qed.

Lemma andThen_proceed output w (rest : DeploymentDetails → W → Run W) :
  andThen (proceed output w) rest = rest output w.
Proof. unfold andThen. simpl. apply run_eta. Qed.

Lemma andThen_err r rest msg : err r = Some msg → andThen r rest = r.
Proof. unfold andThen. intros H. by rewrite H. Qed.

Lemma andThen_ok r rest :
  err r = None →
  andThen r rest
  = {| ret := ret (rest (ret r) (final r)); err := err (rest (ret r) (final r));
       calls := calls r ++ calls (rest (ret r) (final r));
       final := final (rest (ret r) (final r)) |}.
Proof. unfold andThen. intros H. by rewrite H. Qed.

Lemma andThen_ext r (f g : DeploymentDetails → W → Run W) :
  (∀ o w, f o w = g o w) → andThen r f = andThen r g.
Proof. intros H. unfold andThen. by rewrite H. Qed.

Lemma andThen_assoc r (f g : DeploymentDetails → W → Run W) :
  andThen (andThen r f) g = andThen r (λ o w, andThen (f o w) g).
Proof.
  unfold andThen. destruct (err r) eqn:E; simpl.
  - by rewrite E.
  - destruct (err (f (ret r) (final r))) eqn:F; simpl; rewrite ?F; [done|].
    by rewrite app_assoc.
Qed.

(** A loop over [a ++ b] is the loop over [a] followed by the loop over [b]. *)
Lemma rangePods_app k name a b output w :
  rangePods k name (a ++ b) output w
  = andThen (rangePods k name a output w) (rangePods k name b).
Proof.
  revert output w. induction a as [|pod a IH]; intros output w; simpl.
  - by rewrite andThen_proceed.
  - rewrite andThen_assoc. by apply andThen_ext.
Qed.

Lemma rangeDeployments_app k a b output w :
  rangeDeployments k (a ++ b) output w
  = andThen (rangeDeployments k a output w) (rangeDeployments k b).
Proof.
  revert output w. induction a as [|[name label] a IH]; intros output w; simpl.
  - by rewrite andThen_proceed.
  - rewrite andThen_assoc. by apply andThen_ext.
Qed.

(** What one iteration of the inner loop does, by the answer to its patch. *)
Lemma patchPod_unfold k name pod output w :
  patchPod k name pod output w =
  let t := (Now k w).1 in
  let data := patchData (FormatRFC3339 t) in
  let a := DeploymentsPatch k (pod_Namespace pod) name data (Now k w).2 in
  {| ret := match a.1 with
            | Some _ => output
            | None => {| dd_Name := dd_Name output;
                         dd_Pods := dd_Pods output ++ [podDetail pod (FormatRFC3339 t)] |}
            end;
     err := match a.1 with
            | Some msg => Some ("failed to patch deployment " +:+ name
                                +:+ " for pod " +:+ pod_Name pod +:+ ": " +:+ msg)
            | None => None
            end;
     calls := [CallNow t; CallDeploymentsPatch (pod_Namespace pod) name data a.1];
     final := a.2 |}.
Proof.
  unfold patchPod. destruct (Now k w) as [t w1]; simpl.
  destruct (DeploymentsPatch k _ _ _ w1) as [[msg|] w2]; reflexivity.
Qed.

Lemma redeployOne_unfold k name label output w :
  redeployOne k name label output w =
  logCall (CallPodsList label (PodsList k label w).1)
    match (PodsList k label w).1 with
    | inl msg => fail output ("failed to list pods for deployment " +:+ name +:+ ": " +:+ msg)
                   (PodsList k label w).2
    | inr items => rangePods k name items {| dd_Name := name; dd_Pods := dd_Pods output |}
                     (PodsList k label w).2
    end.
Proof. unfold redeployOne. by destruct (PodsList k label w) as [[msg|items] w1]. Qed.

Lemma redeployDatabasePods_unfold range k w :
  redeployDatabasePods range k w =
  logCall (CallDeploymentsList (DeploymentsList k w).1)
    match (DeploymentsList k w).1 with
    | inl msg => fail zeroDeploymentDetails ("failed to list deployment: " +:+ msg)
                   (DeploymentsList k w).2
    | inr items => rangeDeployments k (range (collectDeployments items))
                     zeroDeploymentDetails (DeploymentsList k w).2
    end.
Proof. unfold redeployDatabasePods. by destruct (DeploymentsList k w) as [[msg|items] w1]. Qed.

(** The inner loop, when it ends without error: one clock reading and one
    patch call per pod, in the order of the pods, and one [PodDetails]
    appended per pod, carrying that pod's own clock reading. *)
Lemma rangePods_ok k name items output w :
  let r := rangePods k name items output w in
  err r = None →
  length (nowCalls (calls r)) = length items
  ∧ ret r = {| dd_Name := dd_Name output;
               dd_Pods := dd_Pods output
                 ++ zip_with podDetail items (FormatRFC3339 <$> nowCalls (calls r)) |}
  ∧ patchCalls (calls r)
    = zip_with (λ pod t, (pod_Namespace pod, name, patchData (FormatRFC3339 t)))
        items (nowCalls (calls r))
  ∧ podsListCalls (calls r) = [].
Proof.
  revert output w. induction items as [|pod items IH]; intros output w; simpl.
  - intros _. rewrite app_nil_r. by destruct output.
  - intros H. unfold andThen in H |- *.
    destruct (err (patchPod k name pod output w)) eqn:E.
    { by rewrite H in E. }
    simpl in H. specialize (IH _ _ H) as (IH1 & IH2 & IH3 & IH4).
    rewrite patchPod_unfold in E, IH1, IH2, IH3, IH4 |- *. simpl in *.
    destruct (DeploymentsPatch k _ _ _ _) as [[msg|] w2]; [done|]. simpl in *.
    rewrite IH2. simpl. rewrite <- app_assoc. simpl.
    unfold patchCalls, nowCalls, podsListCalls in *. simpl.
    rewrite IH1. repeat split; try done. by rewrite IH3.
Qed.

(** One iteration of the outer loop, when it ends without error. *)
Lemma redeployOne_ok k name label output w :
  let r := redeployOne k name label output w in
  err r = None →
  ∃ items,
    (PodsList k label w).1 = inr items
    ∧ podsListCalls (calls r) = [(label, inr items)]
    ∧ length (nowCalls (calls r)) = length items
    ∧ ret r = {| dd_Name := name;
                 dd_Pods := dd_Pods output
                   ++ zip_with podDetail items (FormatRFC3339 <$> nowCalls (calls r)) |}
    ∧ patchCalls (calls r)
      = zip_with (λ pod t, (pod_Namespace pod, name, patchData (FormatRFC3339 t)))
          items (nowCalls (calls r)).
Proof.
  intros r. subst r. rewrite redeployOne_unfold.
  destruct (PodsList k label w).1 as [msg|items]; [done|]. simpl.
  intros H. exists items. apply rangePods_ok in H as (H1 & H2 & H3 & H4).
  unfold podsListCalls, nowCalls, patchCalls in *. simpl.
  by rewrite H4.
Qed.

Lemma default_last_cons {A} (d x : A) (l : list A) :
  default d (last (x :: l)) = default x (last l).
Proof. rewrite last_cons. by destruct (last l). Qed.

(** The outer loop, when it ends without error. *)
Lemma rangeDeployments_ok k entries output w :
  let r := rangeDeployments k entries output w in
  err r = None →
  (podsListCalls (calls r)).*1 = entries.*2
  ∧ length (nowCalls (calls r)) = length (allListed (calls r))
  ∧ dd_Name (ret r) = default (dd_Name output) (last entries.*1)
  ∧ dd_Pods (ret r)
    = (dd_Pods output
       ++ zip_with podDetail (allListed (calls r)) (FormatRFC3339 <$> nowCalls (calls r)))%list.
Proof.
  revert output w. induction entries as [|[name label] entries IH]; intros output w; simpl.
  - intros _. by rewrite app_nil_r.
  - intros H. unfold andThen in H |- *.
    destruct (err (redeployOne k name label output w)) eqn:E.
    { by rewrite H in E. }
    simpl in H. specialize (IH _ _ H) as (IH1 & IH2 & IH3 & IH4).
    apply redeployOne_ok in E as (items & E0 & E1 & E2 & E3 & E4).
    simpl in *.
    unfold allListed, podsListCalls, nowCalls in *.
    rewrite !omap_app, !fmap_app, concat_app, E1, IH1. simpl.
    rewrite app_nil_r, !length_app, E2, IH2.
    repeat split; try done.
    + rewrite IH3, E3, default_last_cons. reflexivity.
    + rewrite IH4, E3. simpl. rewrite <- app_assoc. f_equal.
      rewrite zip_with_app; [done|]. by rewrite length_fmap.
Qed.

End RunFacts.

(** * Facts about discovery *)

Lemma append_cons (c : ascii) (p q : string) : String c p +:+ q = String c (p +:+ q).
Proof. reflexivity. Qed.

Lemma append_empty (q : string) : EmptyString +:+ q = q.
Proof. reflexivity. Qed.

Lemma append_assoc (p q r : string) : (p +:+ q) +:+ r = p +:+ (q +:+ r).
Proof. induction p as [|c p IH]; [done|]. by rewrite !append_cons, IH. Qed.

Lemma prefix_spec (p s : string) :
  String.prefix p s = true ↔ ∃ post, s = p +:+ post.
Proof.
  revert s. induction p as [|c p IH]; intros s; simpl.
  - split; [intros _; by exists s | by destruct s].
  - destruct s as [|d s]; simpl.
    + split; [done | by intros [post ?]].
    + destruct (ascii_dec c d) as [->|Hne].
      * rewrite IH. split; intros [post H]; exists post;
          rewrite append_cons in *; congruence.
      * split; [done|]. intros [post H]. rewrite append_cons in H. congruence.
Qed.

Lemma Contains_empty (substr : string) :
  Contains EmptyString substr = String.prefix substr EmptyString.
Proof. cbn [Contains]. by destruct (String.prefix substr EmptyString). Qed.

Lemma Contains_cons (c : ascii) (s substr : string) :
  Contains (String c s) substr
  = String.prefix substr (String c s) || Contains s substr.
Proof. cbn [Contains]. by destruct (String.prefix substr (String c s)). Qed.

(** [Contains] decides the occurrence of [substr] as a contiguous piece. *)
Lemma Contains_spec (s substr : string) :
  Contains s substr = true ↔ ∃ pre post, s = pre +:+ substr +:+ post.
Proof.
  induction s as [|c s IH].
  - rewrite Contains_empty, prefix_spec. split.
    + intros [post H]. by exists EmptyString, post.
    + intros (pre & post & H). destruct pre; [|done]. by exists post.
  - rewrite Contains_cons, orb_true_iff, prefix_spec, IH. split.
    + intros [[post H]|(pre & post & H)].
      * by exists EmptyString, post.
      * exists (String c pre), post. by rewrite append_cons, H.
    + intros (pre & post & H). destruct pre as [|c' pre].
      * left. by exists post.
      * right. rewrite append_cons in H. injection H as -> ->. eauto.
Qed.

Lemma collectDeployments_snoc (items : list Deployment) (d : Deployment) :
  collectDeployments (items ++ [d]) = collectDeployment (collectDeployments items) d.
Proof. unfold collectDeployments. by rewrite fold_left_app. Qed.

(** The names that get an entry: those of the listed Deployments that
    contain "database". *)
Lemma collectDeployments_dom (items : list Deployment) (name : string) :
  is_Some (collectDeployments items !! name)
  ↔ Contains name "database" = true ∧ ∃ d, d ∈ items ∧ d_Name d = name.
Proof.
  induction items as [|d items IH] using rev_ind.
  - unfold collectDeployments. simpl. rewrite lookup_empty. split.
    + by intros [? ?].
    + intros [_ (d & H & _)]. by apply elem_of_nil in H.
  - rewrite collectDeployments_snoc. unfold collectDeployment.
    destruct (Contains (d_Name d) "database") eqn:C.
    + destruct (decide (d_Name d = name)) as [<-|Hne].
      * rewrite lookup_insert_eq. split; [|by eauto].
        intros _. split; [done|]. exists d. split; [|done].
        apply elem_of_app. right. by apply list_elem_of_singleton.
      * rewrite lookup_insert_ne by done. rewrite IH. split.
        -- intros [? (d' & ? & ?)]. split; [done|]. exists d'.
           split; [|done]. apply elem_of_app. by left.
        -- intros [? (d' & [?| ->%list_elem_of_singleton]%elem_of_app & ?)]; [eauto|done].
    + rewrite IH. split.
      * intros [? (d' & ? & ?)]. split; [done|]. exists d'.
        split; [|done]. apply elem_of_app. by left.
      * intros [? (d' & [?| ->%list_elem_of_singleton]%elem_of_app & ?)]; [eauto|congruence].
Qed.



(** * Facts about timestamps and patch documents *)

Lemma digitChar_cases (d : Z) :
  ∃ n, (n < 10)%nat ∧ d mod 10 = Z.of_nat n ∧ digitChar d = ascii_of_nat (48 + n).
Proof.
  pose proof (Z.mod_pos_bound d 10 eq_refl) as Hb.
  exists (Z.to_nat (d mod 10)). split; [lia|]. split; [lia|].
  unfold digitChar. generalize dependent (d mod 10). intros m Hm.
  assert (m = 0 ∨ m = 1 ∨ m = 2 ∨ m = 3 ∨ m = 4 ∨ m = 5 ∨ m = 6 ∨ m = 7 ∨ m = 8 ∨ m = 9)
    as Hc by lia.
  repeat destruct Hc as [->|Hc]; try subst m; reflexivity.
Qed.

Lemma isDigit_digitChar (d : Z) : isDigit (digitChar d) = true.
Proof.
  destruct (digitChar_cases d) as (n & Hn & _ & ->).
  do 10 (destruct n as [|n]; [reflexivity|]). lia.
Qed.

Lemma digitValue_digitChar (d : Z) : digitValue (digitChar d) = d mod 10.
Proof.
  destruct (digitChar_cases d) as (n & Hn & -> & ->).
  do 10 (destruct n as [|n]; [reflexivity|]). lia.
Qed.

Lemma twoDigits_appendInt (x : Z) :
  0 <= x < 100 → twoDigits (digitChar (x / 10)) (digitChar x) = x.
Proof.
  intros Hx. unfold twoDigits. rewrite !digitValue_digitChar.
  rewrite (Z.mod_small (x / 10) 10) by (split; [apply Z.div_pos|apply Z.div_lt_upper_bound]; lia).
  pose proof (Z.div_mod x 10). lia.
Qed.

(** The clock readings Go can print are printed as RFC3339 date-times. *)
Lemma FormatRFC3339_valid (t : Time) :
  validTime t = true → isRFC3339UTC (FormatRFC3339 t) = true.
Proof.
  unfold validTime. rewrite !andb_true_iff, !Z.leb_le.
  intros [[[[[[[[[[[? ?] ?] ?] ?] ?] ?] ?] ?] ?] ?] ?].
  unfold isRFC3339UTC, FormatRFC3339. cbn [appendInt]. rewrite !append_cons, !append_empty.
  cbn [list_ascii_of_string forallb].
  rewrite !isDigit_digitChar, !twoDigits_appendInt by lia.
  unfold between. cbn [andb Ascii.eqb Bool.eqb].
  rewrite !andb_true_iff, !Z.leb_le. lia.
Qed.

(** The template of line 121 is the rendering of the document that sets the
    one annotation. *)
Lemma patchData_render (timeStamp : string) :
  patchData timeStamp = render (restartedAtPatch timeStamp).
Proof.
  unfold patchData, restartedAtPatch. cbn [render map String.concat fst snd].
  generalize (quoted timeStamp), (quoted "spec"), (quoted "template"), (quoted "metadata"),
    (quoted "annotations"), (quoted "restarted_at").
  intros. rewrite !append_assoc, !append_cons, !append_empty. reflexivity.
Qed.

(** * Facts about the patch calls of a log *)

Section LogFacts.
Context {W : Type} (k : Clientset W).

Lemma andThen_calls (r : Run W) rest (c : Call) :
  c ∈ calls (andThen r rest) → c ∈ calls r ∨ c ∈ calls (rest (ret r) (final r)).
Proof.
  unfold andThen. destruct (err r); simpl; [by left|]. by rewrite elem_of_app.
Qed.

(** Whatever the outcome, a patch call of the inner loop names the
    Deployment of the loop and carries the document of a clock reading. *)
Lemma rangePods_patch name items output w ns n data e :
  CallDeploymentsPatch ns n data e ∈ calls (rangePods k name items output w) →
  n = name ∧ ∃ w', data = patchData (FormatRFC3339 (Now k w').1).
Proof.
  revert output w. induction items as [|pod items IH]; intros output w; simpl.
  - intros H. by apply elem_of_nil in H.
  - intros [H|H]%andThen_calls; [|by eapply IH].
    rewrite patchPod_unfold in H. simpl in H.
    apply elem_of_cons in H as [H|H]; [done|].
    apply list_elem_of_singleton in H. injection H as -> -> -> ->. eauto.
Qed.

Lemma redeployOne_patch name label output w ns n data e :
  CallDeploymentsPatch ns n data e ∈ calls (redeployOne k name label output w) →
  n = name ∧ ∃ w', data = patchData (FormatRFC3339 (Now k w').1).
Proof.
  rewrite redeployOne_unfold. simpl. intros [H|H]%elem_of_cons; [done|].
  destruct (PodsList k label w).1; simpl in H.
  - by apply elem_of_nil in H.
  - by eapply rangePods_patch.
Qed.

Lemma rangeDeployments_patch entries output w ns n data e :
  CallDeploymentsPatch ns n data e ∈ calls (rangeDeployments k entries output w) →
  n ∈ entries.*1 ∧ ∃ w', data = patchData (FormatRFC3339 (Now k w').1).
Proof.
  revert output w. induction entries as [|[name label] entries IH]; intros output w; simpl.
  - intros H. by apply elem_of_nil in H.
  - intros [H|H]%andThen_calls.
    + apply redeployOne_patch in H as [-> ?]. split; [|done]. apply elem_of_cons. by left.
    + apply IH in H as [? ?]. split; [|done]. apply elem_of_cons. by right.
Qed.

Lemma redeployDatabasePods_patch range w ns n data e :
  CallDeploymentsPatch ns n data e ∈ calls (redeployDatabasePods range k w) →
  ∃ items,
    (DeploymentsList k w).1 = inr items
    ∧ n ∈ (range (collectDeployments items)).*1
    ∧ ∃ w', data = patchData (FormatRFC3339 (Now k w').1).
Proof.
  rewrite redeployDatabasePods_unfold. simpl. intros [H|H]%elem_of_cons; [done|].
  destruct (DeploymentsList k w).1 as [msg|items]; simpl in H.
  - by apply elem_of_nil in H.
  - exists items. split; [done|]. by eapply rangeDeployments_patch.
Qed.

(** The run, once it has reached the entry [(name, label)] of the map
    without error. *)
Lemma redeployDatabasePods_reach range w items done name label todo :
  (DeploymentsList k w).1 = inr items →
  range (collectDeployments items) = (done ++ (name, label) :: todo)%list →
  let r0 := rangeDeployments k done zeroDeploymentDetails (DeploymentsList k w).2 in
  err r0 = None →
  let r1 := redeployOne k name label (ret r0) (final r0) in
  redeployDatabasePods range k w
  = logCall (CallDeploymentsList (inr items))
      {| ret := ret (andThen r1 (rangeDeployments k todo));
         err := err (andThen r1 (rangeDeployments k todo));
         calls := calls r0 ++ calls (andThen r1 (rangeDeployments k todo));
         final := final (andThen r1 (rangeDeployments k todo)) |}.
Proof.
  intros Hl Hr r0 H0 r1. rewrite redeployDatabasePods_unfold, Hl, Hr.
  rewrite rangeDeployments_app. fold r0. by rewrite (andThen_ok _ _ H0).
Qed.

End LogFacts.

(** The template of line 121, byte for byte. *)
Lemma patchData_bytes (timeStamp : string) :
  patchData timeStamp = ofBytes templateHead +:+ timeStamp +:+ ofBytes templateTail.
Proof.
  unfold patchData, quoted, dquote.
  rewrite !append_assoc, !append_cons, !append_empty. reflexivity.
Qed.

Section ClockFacts.
Context {W : Type} (k : Clientset W).

(** Every clock reading of a log was given by the clock. *)
Lemma rangePods_now name items output w t :
  CallNow t ∈ calls (rangePods k name items output w) → ∃ w', t = (Now k w').1.
Proof.
  revert output w. induction items as [|pod items IH]; intros output w; simpl.
  - intros H. by apply elem_of_nil in H.
  - intros [H|H]%andThen_calls; [|by eapply IH].
    rewrite patchPod_unfold in H. simpl in H.
    apply elem_of_cons in H as [H|H].
    + injection H as ->. eauto.
    + by apply list_elem_of_singleton in H.
Qed.

Lemma nowCalls_elem (cs : list Call) (t : Time) : t ∈ nowCalls cs ↔ CallNow t ∈ cs.
Proof.
  unfold nowCalls. rewrite list_elem_of_omap. split.
  - intros (c & Hc & E). destruct c; try done. by injection E as ->.
  - intros H. by exists (CallNow t).
Qed.

Lemma patchCalls_app (a b : list Call) : patchCalls (a ++ b) = patchCalls a ++ patchCalls b.
Proof. apply omap_app. Qed.

Lemma patchCalls_elem (cs : list Call) ns n data :
  (ns, n, data) ∈ patchCalls cs ↔ ∃ e, CallDeploymentsPatch ns n data e ∈ cs.
Proof.
  unfold patchCalls. rewrite list_elem_of_omap. split.
  - intros (c & Hc & E). destruct c; try done. injection E as -> -> ->. eauto.
  - intros [e H]. by exists (CallDeploymentsPatch ns n data e).
Qed.

(** The patch calls of a log none of which names [name]. *)
Lemma patchCallsFor_none (name : string) (cs : list Call) :
  (∀ ns n data e, CallDeploymentsPatch ns n data e ∈ cs → n ≠ name) →
  patchCallsFor name cs = [].
Proof.
  intros H. unfold patchCallsFor.
  assert (Hall : ∀ c, c ∈ patchCalls cs → String.eqb c.1.2 name = false).
  { intros [[ns n] data] [e He]%patchCalls_elem. simpl.
    apply String.eqb_neq. by eapply H. }
  induction (patchCalls cs) as [|c l IH]; simpl; [done|].
  rewrite Hall by (apply elem_of_cons; by left).
  apply IH. intros c' Hc'. apply Hall, elem_of_cons. by right.
Qed.

(** The patch calls of a log all of which name [name]. *)
Lemma patchCallsFor_all (name : string) (cs : list Call) :
  (∀ ns n data e, CallDeploymentsPatch ns n data e ∈ cs → n = name) →
  patchCallsFor name cs = patchCalls cs.
Proof.
  intros H. unfold patchCallsFor.
  assert (Hall : ∀ c, c ∈ patchCalls cs → String.eqb c.1.2 name = true).
  { intros [[ns n] data] [e He]%patchCalls_elem. simpl.
    apply String.eqb_eq. by eapply H. }
  induction (patchCalls cs) as [|c l IH]; simpl; [done|].
  rewrite Hall by (apply elem_of_cons; by left).
  f_equal. apply IH. intros c' Hc'. apply Hall, elem_of_cons. by right.
Qed.

Lemma patchCallsFor_app (name : string) (a b : list Call) :
  patchCallsFor name (a ++ b) = patchCallsFor name a ++ patchCallsFor name b.
Proof. unfold patchCallsFor. by rewrite patchCalls_app, List.filter_app. Qed.

End ClockFacts.

Lemma now_valid (c : Fake.Cluster) : validTime (Fake.now c).1 = true.
Proof.
  unfold validTime. simpl.
  pose proof (Z.mod_pos_bound (Fake.c_Clock c / 60) 60 eq_refl).
  pose proof (Z.mod_pos_bound (Fake.c_Clock c) 60 eq_refl).
  rewrite !andb_true_iff, !Z.leb_le. lia.
Qed.

(** * Facts about selector strings *)

Lemma append_empty_r (s : string) : s +:+ EmptyString = s.
Proof. induction s as [|c s IH]; [done|]. by rewrite append_cons, IH. Qed.

Lemma splitTerms_nonempty (b : bool) (s : string) : splitTerms b s ≠ [].
Proof.
  revert b. induction s as [|c s IH]; intros b; simpl; [done|].
  destruct (Ascii.eqb c "," && negb b); [done|].
  match goal with |- context [splitTerms ?b' s] => specialize (IH b') end.
  by destruct (splitTerms _ s).
Qed.

Lemma allChars_app (p : ascii → bool) (s t : string) :
  allChars p (s +:+ t) = allChars p s && allChars p t.
Proof.
  induction s as [|c s IH]; [done|].
  rewrite append_cons. simpl. by rewrite IH, andb_assoc.
Qed.

Lemma splitTerms_plain (b : bool) (s rest t : string) (ts : list string) :
  allChars isPlain s = true →
  splitTerms b rest = t :: ts →
  splitTerms b (s +:+ rest) = (s +:+ t) :: ts.
Proof.
  intros Hs Hrest. induction s as [|c s IH]; [done|].
  simpl in Hs. apply andb_true_iff in Hs as [Hc Hs].
  rewrite append_cons. simpl.
  unfold isPlain in Hc. rewrite !andb_true_iff, !negb_true_iff in Hc.
  destruct Hc as [[-> ->] ->]. simpl. by rewrite (IH Hs).
Qed.

(** Inside a value list commas do not separate terms. *)
Lemma splitTerms_values (s rest t : string) (ts : list string) :
  allChars isValueChar s = true →
  splitTerms true rest = t :: ts →
  splitTerms true (s +:+ rest) = (s +:+ t) :: ts.
Proof.
  intros Hs Hrest. induction s as [|c s IH]; [done|].
  simpl in Hs. apply andb_true_iff in Hs as [Hc Hs].
  rewrite append_cons. simpl.
  unfold isValueChar in Hc. rewrite !andb_true_iff, !negb_true_iff in Hc.
  destruct Hc as [-> ->]. rewrite andb_false_r. by rewrite (IH Hs).
Qed.

Lemma splitTerms_set (b : bool) (head body rest t : string) (ts : list string) :
  allChars isPlain head = true →
  allChars isValueChar body = true →
  splitTerms false rest = t :: ts →
  splitTerms b ((head +:+ "(" +:+ body +:+ ")") +:+ rest)
  = ((head +:+ "(" +:+ body +:+ ")") +:+ t) :: ts.
Proof.
  intros Hh Hb Hrest. rewrite !append_assoc.
  apply splitTerms_plain; [done|].
  rewrite !append_cons, !append_empty. simpl.
  rewrite (splitTerms_values body (String ")" rest) (String ")" t) ts); [done|done|].
  simpl. by rewrite Hrest.
Qed.

Lemma allChars_impl (p q : ascii → bool) (s : string) :
  (∀ c, p c = true → q c = true) → allChars p s = true → allChars q s = true.
Proof.
  intros Hpq. induction s as [|c s IH]; simpl; [done|].
  rewrite !andb_true_iff. intros [? ?]. split; [by apply Hpq | by apply IH].
Qed.

Lemma not_delimiter (c : ascii) :
  negb (isDelimiter c) = true →
  Ascii.eqb c "," = false ∧ Ascii.eqb c "=" = false ∧ Ascii.eqb c "!" = false
  ∧ Ascii.eqb c "(" = false ∧ Ascii.eqb c ")" = false ∧ Ascii.eqb c " " = false.
Proof.
  unfold isDelimiter. simpl. rewrite negb_true_iff, !orb_false_iff. tauto.
Qed.

Lemma identifier_plain (s : string) : isIdentifier s = true → allChars isPlain s = true.
Proof.
  apply allChars_impl. intros c (H1 & _ & _ & H2 & H3 & _)%not_delimiter.
  unfold isPlain. by rewrite H1, H2, H3.
Qed.

Lemma identifier_valueChars (s : string) :
  isIdentifier s = true → allChars isValueChar s = true.
Proof.
  apply allChars_impl. intros c (_ & _ & _ & H2 & H3 & _)%not_delimiter.
  unfold isValueChar. by rewrite H2, H3.
Qed.

(** An identifier followed by a delimiter, or by nothing, is scanned whole. *)
Lemma scanIdentifier_app (key rest : string) :
  isIdentifier key = true →
  match rest with EmptyString => True | String c _ => isDelimiter c = true end →
  scanIdentifier (key +:+ rest) = (key, rest).
Proof.
  intros Hk Hrest. induction key as [|c key IH].
  - rewrite append_empty. destruct rest as [|c rest]; simpl; [done|]. by rewrite Hrest.
  - unfold isIdentifier in Hk. simpl in Hk. apply andb_true_iff in Hk as [Hc Hk].
    rewrite append_cons. simpl. apply negb_true_iff in Hc. rewrite Hc.
    by rewrite (IH Hk).
Qed.

Lemma parseValues_value (v rest v0 out : string) (l : list string) :
  isIdentifier v = true →
  parseValues rest = Some (v0 :: l, out) →
  parseValues (v +:+ rest) = Some ((v +:+ v0) :: l, out).
Proof.
  intros Hv Hrest. induction v as [|c v IH]; [done|].
  unfold isIdentifier in Hv. simpl in Hv. apply andb_true_iff in Hv as [Hc Hv].
  rewrite append_cons. simpl. rewrite (IH Hv).
  pose proof (not_delimiter c Hc) as (-> & _ & _ & _ & -> & _).
  apply negb_true_iff in Hc. by rewrite Hc.
Qed.

Lemma parseValues_comma (s : string) :
  parseValues (String "," s)
  = match parseValues s with
    | Some (vs, rest) => Some (EmptyString :: vs, rest)
    | None => None
    end.
Proof. reflexivity. Qed.

(** A non-empty list of values, written between commas and closed, is read
    back as it was written. *)
Lemma parseValues_concat (vs : list string) (out : string) :
  vs ≠ [] →
  forallb isIdentifier vs = true →
  parseValues (String.concat "," vs +:+ ")" +:+ out) = Some (vs, out).
Proof.
  induction vs as [|v vs IH]; [done|]. intros _ Hvs.
  simpl in Hvs. apply andb_true_iff in Hvs as [Hv Hvs].
  destruct vs as [|v' vs].
  - simpl. rewrite (parseValues_value v _ EmptyString out []); [|done|done].
    by rewrite append_empty_r.
  - change (String.concat "," (v :: v' :: vs))
      with (v +:+ "," +:+ String.concat "," (v' :: vs)).
    rewrite !append_assoc.
    rewrite (parseValues_value v _ EmptyString out (v' :: vs)); [|done|].
    + by rewrite append_empty_r.
    + rewrite append_cons, append_empty, parseValues_comma. by rewrite IH.
Qed.

Lemma validKey_inv (key : string) :
  validKey key = true →
  isIdentifier key = true
  ∧ ∃ c key', key = String c key' ∧ negb (isDelimiter c) = true.
Proof.
  unfold validKey. rewrite andb_true_iff, negb_true_iff. intros [Hi Hne].
  split; [done|]. destruct key as [|c key']; [done|].
  exists c, key'. split; [done|].
  unfold isIdentifier in Hi. simpl in Hi. by apply andb_true_iff in Hi as [? _].
Qed.

(** What [parseTerm] does with a term that starts with a valid key. *)
Lemma parseTerm_key (key rest : string) :
  validKey key = true →
  match rest with EmptyString => True | String c _ => isDelimiter c = true end →
  parseTerm (key +:+ rest)
  = if String.eqb rest EmptyString then Some (ReqExists key)
    else match stripPrefix "=" rest with
         | Some v => if isIdentifier v then Some (ReqEquals key v) else None
         | None =>
             match stripPrefix " in (" rest with
             | Some r => parseSet (ReqIn key) r
             | None =>
                 match stripPrefix " notin (" rest with
                 | Some r => parseSet (ReqNotIn key) r
                 | None => None
                 end
             end
         end.
Proof.
  intros Hk Hrest. pose proof (validKey_inv key Hk) as (Hi & c & key' & -> & Hc).
  unfold parseTerm.
  assert (E : stripPrefix "!" (String c key' +:+ rest) = None).
  { rewrite append_cons. cbn [stripPrefix].
    pose proof (not_delimiter c Hc) as (_ & _ & H & _).
    rewrite Ascii.eqb_sym in H. by rewrite H. }
  rewrite E, (scanIdentifier_app _ _ Hi Hrest). reflexivity.
Qed.

Lemma parseTerm_exists (key : string) :
  validKey key = true → parseTerm key = Some (ReqExists key).
Proof.
  intros Hk. rewrite <- (append_empty_r key) at 1.
  by rewrite (parseTerm_key key EmptyString Hk I).
Qed.

Lemma parseTerm_doesNotExist (key : string) :
  validKey key = true → parseTerm ("!" +:+ key) = Some (ReqDoesNotExist key).
Proof.
  intros Hk. unfold parseTerm. rewrite append_cons, append_empty. simpl.
  unfold validKey in Hk. by rewrite Hk.
Qed.

Lemma parseTerm_equals (key v : string) :
  validKey key = true → isIdentifier v = true →
  parseTerm (key +:+ "=" +:+ v) = Some (ReqEquals key v).
Proof.
  intros Hk Hv. rewrite (parseTerm_key key _ Hk); [|done].
  rewrite append_cons, append_empty. simpl. by rewrite Hv.
Qed.

Lemma parseTerm_in (key : string) (vs : list string) :
  validKey key = true → vs ≠ [] → forallb isIdentifier vs = true →
  parseTerm (key +:+ " in (" +:+ String.concat "," vs +:+ ")") = Some (ReqIn key vs).
Proof.
  intros Hk Hne Hvs. rewrite (parseTerm_key key _ Hk); [|done].
  rewrite !append_cons, append_empty. simpl. unfold parseSet.
  rewrite <- (append_empty_r ")"), <- append_assoc, append_assoc.
  by rewrite (parseValues_concat vs EmptyString Hne Hvs).
Qed.

Lemma parseTerm_notin (key : string) (vs : list string) :
  validKey key = true → vs ≠ [] → forallb isIdentifier vs = true →
  parseTerm (key +:+ " notin (" +:+ String.concat "," vs +:+ ")") = Some (ReqNotIn key vs).
Proof.
  intros Hk Hne Hvs. rewrite (parseTerm_key key _ Hk); [|done].
  rewrite !append_cons, append_empty. simpl. unfold parseSet.
  rewrite <- (append_empty_r ")"), <- append_assoc, append_assoc.
  by rewrite (parseValues_concat vs EmptyString Hne Hvs).
Qed.

Lemma splitTerms_comma (s : string) :
  splitTerms false (String "," s) = EmptyString :: splitTerms false s.
Proof. reflexivity. Qed.

Lemma splitTerms_concat (terms : list string) (reqs : list Requirement) :
  terms ≠ [] → Forall2 goodTerm terms reqs →
  splitTerms false (String.concat "," terms) = terms.
Proof.
  intros Hne H. induction H as [|t req terms reqs (_ & _ & Ht) H IH]; [done|].
  destruct terms as [|t2 terms].
  - simpl. rewrite <- (append_empty_r t) at 1.
    rewrite (Ht EmptyString EmptyString []); [|done]. by rewrite append_empty_r.
  - change (String.concat "," (t :: t2 :: terms))
      with (t +:+ "," +:+ String.concat "," (t2 :: terms)).
    rewrite (Ht _ EmptyString (t2 :: terms)).
    + by rewrite append_empty_r.
    + rewrite append_cons, append_empty, splitTerms_comma. by rewrite IH.
Qed.

Lemma parseTerms_good (terms : list string) (reqs : list Requirement) :
  Forall2 goodTerm terms reqs → parseTerms terms = Some reqs.
Proof.
  intros H. induction H as [|t req terms reqs (_ & Ht & _) H IH]; [done|].
  simpl. by rewrite Ht, IH.
Qed.

Lemma concat_nonempty (t : string) (ts : list string) :
  t ≠ EmptyString → String.eqb (String.concat "," (t :: ts)) EmptyString = false.
Proof.
  intros Ht. destruct t as [|c t]; [done|].
  destruct ts as [|t2 ts]; [done|].
  change (String.concat "," (String c t :: t2 :: ts))
    with (String c t +:+ "," +:+ String.concat "," (t2 :: ts)).
  by rewrite append_cons.
Qed.

(** A selector string made of good terms is read back as their list. *)
Lemma parseSelector_good (terms : list string) (reqs : list Requirement) :
  Forall2 goodTerm terms reqs → parseSelector (String.concat "," terms) = Some reqs.
Proof.
  intros H. unfold parseSelector. destruct terms as [|t terms].
  - by inversion H.
  - assert (Ht : t ≠ EmptyString) by (inversion H as [|???? [? _]]; done).
    rewrite (concat_nonempty t terms Ht).
    rewrite (splitTerms_concat _ reqs); [|done|done]. by apply parseTerms_good.
Qed.

Lemma goodTerm_matchLabel (kv : string * string) :
  validKey kv.1 && isIdentifier kv.2 = true →
  goodTerm (formatMatchLabel kv) (ReqEquals kv.1 kv.2).
Proof.
  destruct kv as [key v]. simpl. rewrite andb_true_iff. intros [Hk Hv].
  pose proof (validKey_inv key Hk) as (Hi & c & key' & E & Hc).
  unfold formatMatchLabel. simpl. split; [|split].
  - by rewrite E, append_cons.
  - by apply parseTerm_equals.
  - intros rest t' ts Hrest. apply splitTerms_plain; [|done].
    rewrite !allChars_app, (identifier_plain key Hi), (identifier_plain v Hv). done.
Qed.

Lemma valueChars_concat (vs : list string) :
  forallb isIdentifier vs = true → allChars isValueChar (String.concat "," vs) = true.
Proof.
  induction vs as [|v vs IH]; [done|]. simpl. rewrite andb_true_iff. intros [Hv Hvs].
  destruct vs as [|v' vs]; [by apply identifier_valueChars|].
  rewrite !allChars_app, (identifier_valueChars v Hv), (IH Hvs). done.
Qed.

Lemma goodTerm_expression (r : LabelSelectorRequirement) :
  validExpression r = true → goodTerm (formatRequirement r) (requirementOf r).
Proof.
  unfold validExpression, formatRequirement, requirementOf.
  rewrite andb_true_iff. intros [Hk Hop].
  pose proof (validKey_inv (Key r) Hk) as (Hi & c & key' & E & Hc).
  destruct (Operator r).
  - apply andb_true_iff in Hop as [Hvs Hne]. apply negb_true_iff, bool_decide_eq_false in Hne.
    split; [|split].
    + by rewrite E, append_cons.
    + by apply parseTerm_in.
    + intros rest t' ts Hrest.
      replace (Key r +:+ " in (" +:+ String.concat "," (Values r) +:+ ")")
        with ((Key r +:+ " in ") +:+ "(" +:+ String.concat "," (Values r) +:+ ")")
        by (by rewrite !append_assoc, !append_cons, !append_empty).
      apply splitTerms_set; [|by apply valueChars_concat|done].
      by rewrite allChars_app, (identifier_plain _ Hi).
  - apply andb_true_iff in Hop as [Hvs Hne]. apply negb_true_iff, bool_decide_eq_false in Hne.
    split; [|split].
    + by rewrite E, append_cons.
    + by apply parseTerm_notin.
    + intros rest t' ts Hrest.
      replace (Key r +:+ " notin (" +:+ String.concat "," (Values r) +:+ ")")
        with ((Key r +:+ " notin ") +:+ "(" +:+ String.concat "," (Values r) +:+ ")")
        by (by rewrite !append_assoc, !append_cons, !append_empty).
      apply splitTerms_set; [|by apply valueChars_concat|done].
      by rewrite allChars_app, (identifier_plain _ Hi).
  - split; [|split].
    + by rewrite E.
    + by apply parseTerm_exists.
    + intros rest t' ts Hrest. apply splitTerms_plain; [|done]. by apply identifier_plain.
  - split; [|split].
    + done.
    + by apply parseTerm_doesNotExist.
    + intros rest t' ts Hrest. apply splitTerms_plain; [|done].
      by rewrite allChars_app, (identifier_plain _ Hi).
Qed.

(** The string written for a valid selector is read back as its terms. *)
Lemma parseSelector_FormatLabelSelector (sel : LabelSelector) :
  validSelector sel = true →
  parseSelector (FormatLabelSelector sel) = Some (requirementsOf sel).
Proof.
  unfold validSelector, FormatLabelSelector, requirementsOf.
  rewrite andb_true_iff, !forallb_forall. intros [Hl He].
  apply parseSelector_good, Forall2_app.
  - induction (map_to_list (MatchLabels sel)) as [|kv l IH]; simpl; [constructor|].
    constructor.
    + apply goodTerm_matchLabel, Hl. by left.
    + apply IH. intros kv' H. apply Hl. by right.
  - induction (MatchExpressions sel) as [|r l IH]; simpl; [constructor|].
    constructor.
    + apply goodTerm_expression, He. by left.
    + apply IH. intros r' H. apply He. by right.
Qed.

Lemma hasValue_singleton (labels : gmap string string) (key v : string) :
  hasValue labels key [v] = bool_decide (labels !! key = Some v).
Proof.
  unfold hasValue. destruct (labels !! key) as [v'|] eqn:E.
  - apply bool_decide_ext. rewrite list_elem_of_singleton. split; congruence.
  - symmetry. by apply bool_decide_eq_false.
Qed.

(** The terms of a structured selector hold of a label set exactly when the
    selector does. *)
Lemma requirementsOf_matches (sel : LabelSelector) (labels : gmap string string) :
  forallb (requirementMatches labels) (requirementsOf sel) = LabelSelectorMatches sel labels.
Proof.
  unfold requirementsOf, LabelSelectorMatches. rewrite forallb_app. f_equal.
  - induction (map_to_list (MatchLabels sel)) as [|kv l IH]; simpl; [done|].
    by rewrite hasValue_singleton, IH.
  - induction (MatchExpressions sel) as [|r l IH]; simpl; [done|].
    rewrite IH. f_equal. unfold requirementOf, expressionMatches. by destruct (Operator r).
Qed.

(** * The claims *)

(** The examples the spec gives for the name filter, and two names that a
    pattern or a label would match but the substring test does not. *)
Example Contains_examples :
  Contains "my-database-svc" "database" = true
  ∧ Contains "MyDatabase" "database" = false
  ∧ Contains "cache" "database" = false
  ∧ Contains "data.base" "database" = false
  ∧ Contains "web-frontend" "database" = false.
Proof. repeat split; reflexivity. Qed.

(** C5: a Deployment returned by the cluster-wide list is selected for
    redeploy, that is, its name has an entry in [deploymentsMap], the map the
    redeploy loop visits, if and only if its name contains the literal
    substring "database", compared case-sensitively character by
    character. *)
Theorem selected_iff_name_contains_database (items : list Deployment) (d : Deployment) :
  d ∈ items →
  is_Some (collectDeployments items !! d_Name d)
  ↔ ∃ pre post, d_Name d = pre +:+ "database" +:+ post.
Proof.
  intros Hd. rewrite collectDeployments_dom, Contains_spec. split.
  - by intros [? _].
  - intros H. split; [done|]. by exists d.
Qed.

Lemma selected_iff_name_contains_database_witness :
  let items := Fake.c_Deployments (Fake.endToEnd 0) in
  let d := Fake.deployment "prod" "database-cache" "cache" in
  d ∈ items
  ∧ (is_Some (collectDeployments items !! d_Name d)
     ↔ ∃ pre post, d_Name d = pre +:+ "database" +:+ post).
Proof.
  intros items d.
  assert (Hd : d ∈ items).
  { unfold items, d. simpl. apply elem_of_cons. right. apply elem_of_cons. right.
    apply elem_of_cons. by left. }
  split; [exact Hd|]. exact (selected_iff_name_contains_database items d Hd).
Defined.


(** Two Deployments named database in two namespaces: the run lists pods
    once, by the selector of the one listed last, and patches that name once,
    in the namespace of the pod found. *)
Example same_name_scenario :
  let r := redeployDatabasePods map_to_list Fake.clientset Fake.sameName in
  err r = None
  ∧ (podsListCalls (calls r)).*1 = ["app=db-green"]
  ∧ patchCalls (calls r) = [("green", "database", patchData "2024-01-01T00:00:00Z")]
  ∧ dd_Pods (ret r) = [{| pd_Name := "g-0"; pd_RestartedOn := "2024-01-01T00:00:00Z" |}].
Proof. repeat split; reflexivity. Qed.

Lemma rangeOrder_map_to_list : rangeOrder map_to_list.
Proof. by intros m. Qed.


Lemma podDetail_names (pods : list Pod) (stamps : list string) :
  length stamps = length pods →
  pd_Name <$> zip_with podDetail pods stamps = pod_Name <$> pods.
Proof.
  revert stamps. induction pods as [|p pods IH]; intros [|t stamps] Hlen; simpl in *; try done.
  f_equal. apply IH. lia.
Qed.

(** C8: on a run that ends without error, the returned [Name] is the name
    of the Deployment processed last (Go's zero value, the empty string,
    when no Deployment matched), the pod-list calls were made for the entries
    of the map in processing order, and the returned [Pods] hold one entry
    per pod of the answers to those calls, concatenated in the order of the
    calls and, within a call, in the order of the answer, each with that
    pod's name. *)
Theorem result_of_successful_run {W} (range : MapRange) (k : Clientset W) (w : W) :
  let r := redeployDatabasePods range k w in
  err r = None →
  ∃ items,
    (DeploymentsList k w).1 = inr items
    ∧ dd_Name (ret r) = default EmptyString (last (range (collectDeployments items)).*1)
    ∧ (podsListCalls (calls r)).*1 = (range (collectDeployments items)).*2
    ∧ pd_Name <$> dd_Pods (ret r) = pod_Name <$> allListed (calls r)
    ∧ dd_Pods (ret r)
      = zip_with podDetail (allListed (calls r)) (FormatRFC3339 <$> nowCalls (calls r)).
Proof.
  intros r. subst r. rewrite redeployDatabasePods_unfold.
  destruct (DeploymentsList k w).1 as [msg|items]; [done|]. simpl.
  intros H. exists items. split; [done|].
  apply rangeDeployments_ok in H as (H1 & H2 & H3 & H4). simpl in *.
  repeat split; try done.
  rewrite H4. apply podDetail_names. by rewrite length_fmap.
Qed.

Lemma result_of_successful_run_witness :
  let r := redeployDatabasePods map_to_list Fake.clientset (Fake.endToEnd 100) in
  err r = None
  ∧ dd_Name (ret r) = "database-primary"
  ∧ (podsListCalls (calls r)).*1 = ["app=cache"; "app=primary"]
  ∧ pd_Name <$> dd_Pods (ret r) = ["cache-0"; "primary-0"].
Proof.
  intros r. assert (H : err r = None) by reflexivity.
  destruct (result_of_successful_run map_to_list Fake.clientset (Fake.endToEnd 100) H)
    as (items & E & HN & HL & HP & _).
  injection E as <-.
  split; [exact H|]. split; [exact HN|]. split; [exact HL|]. exact HP.
Defined.

(** C10: when the run reaches a matched Deployment whose pod-list call
    succeeds with no pod, that iteration makes the pod-list call and nothing
    else (no clock reading, no patch call), leaves [Pods] as it was and
    writes the Deployment's name into [Name]; the run goes on with the
    remaining entries from there, and when none remains that name is the
    returned [Name]. *)
Theorem no_pods_no_patch {W} (range : MapRange) (k : Clientset W) (w : W)
    (items : list Deployment) (done todo : list (string * string)) (name label : string) :
  (DeploymentsList k w).1 = inr items →
  range (collectDeployments items) = (done ++ (name, label) :: todo)%list →
  let r0 := rangeDeployments k done zeroDeploymentDetails (DeploymentsList k w).2 in
  err r0 = None →
  (PodsList k label (final r0)).1 = inr [] →
  let output' := {| dd_Name := name; dd_Pods := dd_Pods (ret r0) |} in
  let w' := (PodsList k label (final r0)).2 in
  redeployOne k name label (ret r0) (final r0)
  = {| ret := output'; err := None; calls := [CallPodsList label (inr [])]; final := w' |}
  ∧ let r2 := rangeDeployments k todo output' w' in
    let r := redeployDatabasePods range k w in
    ret r = ret r2
    ∧ err r = err r2
    ∧ calls r
      = CallDeploymentsList (inr items) :: calls r0 ++ CallPodsList label (inr []) :: calls r2
    ∧ (todo = [] → err r = None ∧ ret r = output').
Proof.
  intros Hl Hr r0 H0 Hp output' w'.
  assert (E : redeployOne k name label (ret r0) (final r0)
              = {| ret := output'; err := None; calls := [CallPodsList label (inr [])];
                   final := w' |}).
  { rewrite redeployOne_unfold, Hp. reflexivity. }
  split; [exact E|]. intros r2 r. subst r.
  rewrite (redeployDatabasePods_reach k range w items done name label todo Hl Hr H0).
  fold r0. rewrite E. unfold andThen. simpl. fold r2.
  split; [done|]. split; [done|]. split; [done|]. intros ->. by subst r2.
Qed.

Lemma no_pods_no_patch_witness :
  let r := redeployDatabasePods map_to_list Fake.clientset Fake.noPods in
  err r = None
  ∧ ret r = {| dd_Name := "database"; dd_Pods := [] |}
  ∧ patchCalls (calls r) = []
  ∧ (podsListCalls (calls r)).*1 = ["app=db"].
Proof.
  intros r.
  destruct (no_pods_no_patch map_to_list Fake.clientset Fake.noPods
              (Fake.c_Deployments Fake.noPods) [] [] "database" "app=db"
              eq_refl eq_refl eq_refl eq_refl) as (_ & _ & _ & Hc & Hlast).
  destruct (Hlast eq_refl) as [He Hr].
  split; [exact He|]. split; [exact Hr|].
  change (patchCalls (calls r) = [] ∧ (podsListCalls (calls r)).*1 = ["app=db"]).
  subst r. rewrite Hc. split; reflexivity.
Defined.

(** C6: every API error ends the run on the spot, without a retry.  When
    the Deployment list fails, that call is the only one made.  When the run
    has reached a matched Deployment and the pod-list call for it fails, the
    error returned names that Deployment, and the failed call is the last call
    of the run: nothing is called for that Deployment or for any entry still
    to be visited.  When a patch call fails, the error names the Deployment
    and the pod, and the failed patch is the last call of the run. *)
Theorem api_errors_are_fatal {W} (range : MapRange) (k : Clientset W) (w : W) :
  let r := redeployDatabasePods range k w in
  (∀ msg, (DeploymentsList k w).1 = inl msg →
     err r = Some ("failed to list deployment: " +:+ msg)
     ∧ calls r = [CallDeploymentsList (inl msg)])
  ∧ ∀ items done name label todo,
      (DeploymentsList k w).1 = inr items →
      range (collectDeployments items) = (done ++ (name, label) :: todo)%list →
      let r0 := rangeDeployments k done zeroDeploymentDetails (DeploymentsList k w).2 in
      err r0 = None →
      (∀ msg, (PodsList k label (final r0)).1 = inl msg →
         err r = Some ("failed to list pods for deployment " +:+ name +:+ ": " +:+ msg)
         ∧ calls r
           = CallDeploymentsList (inr items) :: calls r0 ++ [CallPodsList label (inl msg)])
      ∧ (∀ pods patched pod rest,
           (PodsList k label (final r0)).1 = inr pods →
           pods = (patched ++ pod :: rest)%list →
           let r1 := rangePods k name patched
                       {| dd_Name := name; dd_Pods := dd_Pods (ret r0) |}
                       (PodsList k label (final r0)).2 in
           err r1 = None →
           let t := (Now k (final r1)).1 in
           let data := patchData (FormatRFC3339 t) in
           ∀ msg,
             (DeploymentsPatch k (pod_Namespace pod) name data (Now k (final r1)).2).1
               = Some msg →
             err r = Some ("failed to patch deployment " +:+ name +:+ " for pod "
                           +:+ pod_Name pod +:+ ": " +:+ msg)
             ∧ calls r
               = CallDeploymentsList (inr items) :: calls r0
                 ++ CallPodsList label (inr pods) :: calls r1
                 ++ [CallNow t; CallDeploymentsPatch (pod_Namespace pod) name data (Some msg)]).
Proof.
  intros r. split.
  { intros msg Hl. subst r. rewrite redeployDatabasePods_unfold, Hl. by simpl. }
  intros items done name label todo Hl Hr r0 H0. subst r.
  rewrite (redeployDatabasePods_reach k range w items done name label todo Hl Hr H0).
  fold r0. split.
  - intros msg Hp. rewrite redeployOne_unfold, Hp. by simpl.
  - intros pods patched pod rest Hp -> r1 H1 t data msg Hpatch.
    rewrite redeployOne_unfold, Hp. simpl.
    rewrite rangePods_app. fold r1. rewrite (andThen_ok _ _ H1). simpl.
    rewrite patchPod_unfold. fold t. simpl. fold data. rewrite Hpatch.
    unfold andThen. by simpl.
Qed.

Lemma api_errors_are_fatal_witness :
  let r := redeployDatabasePods map_to_list Fake.clientset (Fake.endToEnd 3) in
  err r = Some ("failed to list pods for deployment database-primary: "
                +:+ Fake.unavailable)
  ∧ patchCalls (calls r)
    = [("prod", "database-cache", patchData "2024-01-01T00:00:00Z")]
  ∧ last (calls r) = Some (CallPodsList "app=primary" (inl Fake.unavailable)).
Proof.
  intros r.
  destruct (api_errors_are_fatal map_to_list Fake.clientset (Fake.endToEnd 3)) as [_ H].
  destruct (H (Fake.c_Deployments (Fake.endToEnd 3)) [("database-cache", "app=cache")]
              "database-primary" "app=primary" [] eq_refl eq_refl eq_refl) as [Hlist _].
  destruct (Hlist Fake.unavailable eq_refl) as [He Hc].
  split; [exact He|].
  change (patchCalls (calls r)
            = [("prod", "database-cache", patchData "2024-01-01T00:00:00Z")]
          ∧ last (calls r) = Some (CallPodsList "app=primary" (inl Fake.unavailable))).
  subst r. rewrite Hc. split; reflexivity.
Defined.

(** The spec's fail-fast scenario: of three matched Deployments the pod-list
    call of the second one visited fails; the error names that Deployment,
    the only patch call is the one of the first, and nothing is called for the
    third. *)
Example fail_fast_scenario :
  let r := redeployDatabasePods map_to_list Fake.clientset (Fake.threeDatabases 3) in
  (map_to_list (collectDeployments (Fake.c_Deployments (Fake.threeDatabases 3)))).*1
  = ["database-c"; "database-a"; "database-b"]
  ∧ err r = Some ("failed to list pods for deployment database-a: " +:+ Fake.unavailable)
  ∧ patchCalls (calls r) = [("prod", "database-c", patchData "2024-01-01T00:00:00Z")]
  ∧ (podsListCalls (calls r)).*1 = ["app=c"; "app=a"].
Proof. repeat split; reflexivity. Qed.

(** The spec's end-to-end scenario: of the Deployments database-primary,
    web-frontend and database-cache the first and the third are patched, and
    the result holds their two pods. *)
Example end_to_end_scenario :
  let r := redeployDatabasePods map_to_list Fake.clientset (Fake.endToEnd 100) in
  err r = None
  ∧ patchCalls (calls r)
    = [("prod", "database-cache", patchData "2024-01-01T00:00:00Z");
       ("prod", "database-primary", patchData "2024-01-01T00:00:01Z")]
  ∧ dd_Pods (ret r)
    = [{| pd_Name := "cache-0"; pd_RestartedOn := "2024-01-01T00:00:00Z" |};
       {| pd_Name := "primary-0"; pd_RestartedOn := "2024-01-01T00:00:01Z" |}].
Proof. repeat split; reflexivity. Qed.

(** C7: every patch call of a run carries the document of the template of
    line 121 with one timestamp in it: byte for byte the template's bytes
    around the timestamp, which is the rendering of the JSON document whose
    only member path is spec.template.metadata.annotations.restarted_at; and
    the timestamp is an RFC3339 date-time in UTC, the clock giving calendar
    fields in their ranges. *)
Theorem patch_document_shape {W} (range : MapRange) (k : Clientset W) (w : W) :
  (∀ w', validTime (Now k w').1 = true) →
  ∀ ns name data e,
    CallDeploymentsPatch ns name data e ∈ calls (redeployDatabasePods range k w) →
    ∃ timeStamp,
      isRFC3339UTC timeStamp = true
      ∧ data = patchData timeStamp
      ∧ data = ofBytes templateHead +:+ timeStamp +:+ ofBytes templateTail
      ∧ data = render (restartedAtPatch timeStamp).
Proof.
  intros Hclock ns name data e H.
  apply redeployDatabasePods_patch in H as (items & _ & _ & w' & ->).
  exists (FormatRFC3339 (Now k w').1). split; [|split; [|split]].
  - apply FormatRFC3339_valid, Hclock.
  - done.
  - apply patchData_bytes.
  - apply patchData_render.
Qed.

Lemma patch_document_shape_witness :
  let r := redeployDatabasePods map_to_list Fake.clientset Fake.twoPods in
  let data := patchData "2024-01-01T00:00:01Z" in
  CallDeploymentsPatch "prod" "database" data None ∈ calls r
  ∧ ∃ timeStamp,
      isRFC3339UTC timeStamp = true
      ∧ data = patchData timeStamp
      ∧ data = ofBytes templateHead +:+ timeStamp +:+ ofBytes templateTail
      ∧ data = render (restartedAtPatch timeStamp).
Proof.
  intros r data.
  assert (H : CallDeploymentsPatch "prod" "database" data None ∈ calls r).
  { apply list_elem_of_In. vm_compute. tauto. }
  split; [exact H|].
  exact (patch_document_shape map_to_list Fake.clientset Fake.twoPods now_valid
           "prod" "database" data None H).
Defined.

(** The entries before and after an entry of a valid visiting order carry
    other names. *)
Lemma rangeOrder_names (range : MapRange) (m : gmap string string)
    (done todo : list (string * string)) (name label : string) :
  rangeOrder range →
  range m = (done ++ (name, label) :: todo)%list →
  (name ∉ done.*1) ∧ (name ∉ todo.*1).
Proof.
  intros Hr E.
  assert (Hnd : NoDup (range m).*1).
  { rewrite (Hr m). apply NoDup_fst_map_to_list. }
  rewrite E, fmap_app, fmap_cons in Hnd. simpl in Hnd.
  apply NoDup_app in Hnd as (_ & Hd & Ht).
  apply NoDup_cons in Ht as [Ht _]. split; [|done].
  intros H. apply (Hd _ H), elem_of_cons. by left.
Qed.

(** C1, as the code has it: for every matched Deployment a run processes
    without error, the patch calls of the run that name the Deployment are
    one per pod its pod-list call returned, in the order of the answer, each
    against the Deployments resource of that pod's namespace: as many patch
    calls as pods listed, none when no pod was listed. *)
Theorem one_patch_per_listed_pod {W} (range : MapRange) (k : Clientset W) (w : W)
    (items : list Deployment) (done todo : list (string * string)) (name label : string) :
  rangeOrder range →
  (DeploymentsList k w).1 = inr items →
  range (collectDeployments items) = (done ++ (name, label) :: todo)%list →
  let r0 := rangeDeployments k done zeroDeploymentDetails (DeploymentsList k w).2 in
  err r0 = None →
  err (redeployOne k name label (ret r0) (final r0)) = None →
  ∃ pods,
    (PodsList k label (final r0)).1 = inr pods
    ∧ (patchCallsFor name (calls (redeployDatabasePods range k w))).*1
      = (λ pod, (pod_Namespace pod, name)) <$> pods
    ∧ length (patchCallsFor name (calls (redeployDatabasePods range k w))) = length pods.
Proof.
  intros Hr Hl Hrange r0 H0 H1.
  destruct (rangeOrder_names range _ done todo name label Hr Hrange) as [Hd Ht].
  rewrite (redeployDatabasePods_reach k range w items done name label todo Hl Hrange H0).
  fold r0. rewrite (andThen_ok _ _ H1). simpl.
  pose proof (redeployOne_ok k name label (ret r0) (final r0) H1)
    as (pods & Hp & _ & Hlen & _ & Hpatch).
  exists pods. split; [exact Hp|].
  assert (E : patchCallsFor name
                (CallDeploymentsList (inr items)
                 :: calls r0 ++ calls (redeployOne k name label (ret r0) (final r0))
                    ++ calls (rangeDeployments k todo
                                (ret (redeployOne k name label (ret r0) (final r0)))
                                (final (redeployOne k name label (ret r0) (final r0)))))
              = zip_with (λ pod t, (pod_Namespace pod, name, patchData (FormatRFC3339 t)))
                  pods (nowCalls (calls (redeployOne k name label (ret r0) (final r0))))).
  { change (CallDeploymentsList (inr items) :: ?l) with ([CallDeploymentsList (inr items)] ++ l).
    rewrite !patchCallsFor_app.
    rewrite (patchCallsFor_none name (calls r0)).
    2:{ intros ns n data e [Hn _]%rangeDeployments_patch ->. done. }
    rewrite (patchCallsFor_none name (calls (rangeDeployments _ _ _ _))).
    2:{ intros ns n data e [Hn _]%rangeDeployments_patch ->. done. }
    rewrite (patchCallsFor_all name (calls (redeployOne _ _ _ _ _))).
    2:{ intros ns n data e [Hn _]%redeployOne_patch. done. }
    rewrite app_nil_r. simpl. exact Hpatch. }
  rewrite E. revert Hlen.
  generalize (nowCalls (calls (redeployOne k name label (ret r0) (final r0)))) as times.
  clear. intros times. revert times.
  induction pods as [|p pods IH]; intros [|t times] Hlen; simpl in *; try done.
  destruct (IH times) as [IH1 IH2]; [lia|]. split; [by f_equal | by f_equal].
Qed.

Lemma one_patch_per_listed_pod_witness :
  let r := redeployDatabasePods map_to_list Fake.clientset Fake.twoPods in
  ∃ pods,
    (Fake.podsList "app=db" (Fake.spend Fake.twoPods)).1 = inr pods
    ∧ (patchCallsFor "database" (calls r)).*1
      = (λ pod, (pod_Namespace pod, "database")) <$> pods
    ∧ length (patchCallsFor "database" (calls r)) = length pods.
Proof.
  exact (one_patch_per_listed_pod map_to_list Fake.clientset Fake.twoPods
           (Fake.c_Deployments Fake.twoPods) [] [] "database" "app=db"
           rangeOrder_map_to_list eq_refl eq_refl eq_refl eq_refl).
Defined.

(** C1 as stated fails: the run on a cluster whose one matching Deployment
    has two pods ends without error and has issued two patch calls for that
    Deployment, not one. *)
Lemma one_patch_per_deployment_counterexample :
  let r := redeployDatabasePods map_to_list Fake.clientset Fake.twoPods in
  err r = None
  ∧ map_to_list (collectDeployments (Fake.c_Deployments Fake.twoPods))
    = [("database", "app=db")]
  ∧ patchCallsFor "database" (calls r)
    = [("prod", "database", patchData "2024-01-01T00:00:00Z");
       ("prod", "database", patchData "2024-01-01T00:00:01Z")]
  ∧ (length (patchCallsFor "database" (calls r)) ≠ 1%nat).
Proof. repeat split; try reflexivity. vm_compute. discriminate. Qed.

(** C2, as the code has it: for every matched Deployment a run processes
    without error, the clock is read once per listed pod; the [PodDetails]
    recorded for the Deployment are one per listed pod, each carrying the
    pod's name and, as [RestartedOn], the RFC3339 rendering of that pod's own
    clock reading, which is also the timestamp of the patch document sent for
    that pod. *)
Theorem restartedAt_is_the_pods_own_timestamp {W} (range : MapRange) (k : Clientset W)
    (w : W) (items : list Deployment) (done todo : list (string * string))
    (name label : string) :
  (∀ w', validTime (Now k w').1 = true) →
  (DeploymentsList k w).1 = inr items →
  range (collectDeployments items) = (done ++ (name, label) :: todo)%list →
  let r0 := rangeDeployments k done zeroDeploymentDetails (DeploymentsList k w).2 in
  err r0 = None →
  let r1 := redeployOne k name label (ret r0) (final r0) in
  err r1 = None →
  ∃ pods recorded,
    (PodsList k label (final r0)).1 = inr pods
    ∧ length (nowCalls (calls r1)) = length pods
    ∧ recorded = zip_with podDetail pods (FormatRFC3339 <$> nowCalls (calls r1))
    ∧ dd_Pods (ret r1) = dd_Pods (ret r0) ++ recorded
    ∧ (patchCalls (calls r1)).*2 = (λ pd, patchData (pd_RestartedOn pd)) <$> recorded
    ∧ Forall (λ pd, isRFC3339UTC (pd_RestartedOn pd) = true) recorded.
Proof.
  intros Hclock Hl Hrange r0 H0 r1 H1.
  pose proof (redeployOne_ok k name label (ret r0) (final r0) H1)
    as (pods & Hp & _ & Hlen & Hret & Hpatch).
  fold r1 in Hlen, Hret, Hpatch.
  exists pods, (zip_with podDetail pods (FormatRFC3339 <$> nowCalls (calls r1))).
  split; [exact Hp|]. split; [exact Hlen|]. split; [done|].
  split; [by rewrite Hret|].
  assert (Hnow : ∀ t, t ∈ nowCalls (calls r1) → validTime t = true).
  { intros t Ht%nowCalls_elem. unfold r1 in Ht. rewrite redeployOne_unfold, Hp in Ht.
    simpl in Ht. apply elem_of_cons in Ht as [?|Ht]; [done|].
    apply rangePods_now in Ht as [w' ->]. apply Hclock. }
  rewrite Hpatch. revert Hlen Hnow.
  generalize (nowCalls (calls r1)) as times. clear. intros times. revert times.
  induction pods as [|p pods IH]; intros [|t times] Hlen Hnow; simpl in *; try done.
  destruct (IH times) as [IH1 IH2]; [lia| |].
  { intros t' Ht'. apply Hnow, elem_of_cons. by right. }
  split; [by f_equal|]. constructor; [|done]. simpl.
  apply FormatRFC3339_valid, Hnow, elem_of_cons. by left.
Qed.

Lemma restartedAt_is_the_pods_own_timestamp_witness :
  let r1 := redeployOne Fake.clientset "database" "app=db" zeroDeploymentDetails
              (Fake.spend Fake.twoPods) in
  ∃ pods recorded,
    (Fake.podsList "app=db" (Fake.spend Fake.twoPods)).1 = inr pods
    ∧ length (nowCalls (calls r1)) = length pods
    ∧ recorded = zip_with podDetail pods (FormatRFC3339 <$> nowCalls (calls r1))
    ∧ dd_Pods (ret r1) = [] ++ recorded
    ∧ (patchCalls (calls r1)).*2 = (λ pd, patchData (pd_RestartedOn pd)) <$> recorded
    ∧ Forall (λ pd, isRFC3339UTC (pd_RestartedOn pd) = true) recorded.
Proof.
  exact (restartedAt_is_the_pods_own_timestamp map_to_list Fake.clientset Fake.twoPods
           (Fake.c_Deployments Fake.twoPods) [] [] "database" "app=db"
           now_valid eq_refl eq_refl eq_refl eq_refl).
Defined.

(** C2 as stated fails: on a cluster whose one matching Deployment has two
    pods, the run processes that one Deployment and records for it two
    [PodDetails] whose [RestartedOn] differ, the clock having moved between
    the two readings. *)
Lemma shared_timestamp_counterexample :
  let r := redeployDatabasePods map_to_list Fake.clientset Fake.twoPods in
  err r = None
  ∧ (podsListCalls (calls r)).*1 = ["app=db"]
  ∧ ret r = {| dd_Name := "database";
               dd_Pods := [podDetail (Fake.pod "prod" "database-0" "db") "2024-01-01T00:00:00Z";
                           podDetail (Fake.pod "prod" "database-1" "db") "2024-01-01T00:00:01Z"] |}
  ∧ ¬ (∃ timeStamp, ∀ pd, pd ∈ dd_Pods (ret r) → pd_RestartedOn pd = timeStamp).
Proof.
  intros r. split; [reflexivity|]. split; [reflexivity|]. split; [reflexivity|].
  intros [ts H].
  assert (H0 : pd_RestartedOn (podDetail (Fake.pod "prod" "database-0" "db")
                                 "2024-01-01T00:00:00Z") = ts).
  { apply H. apply list_elem_of_In. vm_compute. tauto. }
  assert (H1 : pd_RestartedOn (podDetail (Fake.pod "prod" "database-1" "db")
                                 "2024-01-01T00:00:01Z") = ts).
  { apply H. apply list_elem_of_In. vm_compute. tauto. }
  simpl in H0, H1. congruence.
Qed.

(** C3 on the code: the cluster has two matching Deployments with a pod
    each, and the API server answers three requests (the Deployment list, the
    first pod list, the first patch) before it becomes unavailable.  In either
    order of the two entries the second pod-list call fails, and the function
    returns, next to the error, the output built so far: the name and the
    [PodDetails] of the Deployment processed first. *)
Theorem error_returns_partial_output :
  let run range := redeployDatabasePods range Fake.clientset (Fake.endToEnd 3) in
  let backwards : MapRange := λ m, reverse (map_to_list m) in
  map_to_list (collectDeployments (Fake.c_Deployments (Fake.endToEnd 3)))
  = [("database-cache", "app=cache"); ("database-primary", "app=primary")]
  ∧ err (run map_to_list)
    = Some ("failed to list pods for deployment database-primary: " +:+ Fake.unavailable)
  ∧ ret (run map_to_list)
    = {| dd_Name := "database-cache";
         dd_Pods := [{| pd_Name := "cache-0"; pd_RestartedOn := "2024-01-01T00:00:00Z" |}] |}
  ∧ err (run backwards)
    = Some ("failed to list pods for deployment database-cache: " +:+ Fake.unavailable)
  ∧ ret (run backwards)
    = {| dd_Name := "database-primary";
         dd_Pods := [{| pd_Name := "primary-0"; pd_RestartedOn := "2024-01-01T00:00:00Z" |}] |}
  ∧ ret (run map_to_list) ≠ zeroDeploymentDetails
  ∧ ret (run backwards) ≠ zeroDeploymentDetails.
Proof. repeat split; try reflexivity; vm_compute; discriminate. Qed.

Lemma collectDeployments_lookup (items : list Deployment) (name label : string) :
  collectDeployments items !! name = Some label →
  ∃ d, d ∈ items ∧ d_Name d = name ∧ label = FormatLabelSelector (d_Selector d).
Proof.
  induction items as [|d items IH] using rev_ind.
  - unfold collectDeployments. simpl. by rewrite lookup_empty.
  - rewrite collectDeployments_snoc. unfold collectDeployment.
    assert (Hold : collectDeployments items !! name = Some label →
                   ∃ d0, d0 ∈ items ++ [d] ∧ d_Name d0 = name
                         ∧ label = FormatLabelSelector (d_Selector d0)).
    { intros (d0 & ? & ? & ?)%IH. exists d0. split; [|done]. apply elem_of_app. by left. }
    destruct (Contains (d_Name d) "database"); [|done].
    destruct (decide (d_Name d = name)) as [<-|Hne].
    + rewrite lookup_insert_eq. intros [= <-]. exists d. split; [|done].
      apply elem_of_app. right. by apply list_elem_of_singleton.
    + by rewrite lookup_insert_ne.
Qed.

(** The selector of the spec's round-trip scenario and the string written
    for it. *)
Example FormatLabelSelector_example :
  FormatLabelSelector
    {| MatchLabels := {[ "app" := "db" ]};
       MatchExpressions := [{| Key := "tier"; Operator := LabelSelectorOpIn;
                               Values := ["primary"; "replica"] |}] |}
  = "app=db,tier in (primary,replica)".
Proof. reflexivity. Qed.

(** C4: the selector string kept for a matched Deployment is the canonical
    string of a listed Deployment of that name, and for every label set,
    filtering by that string gives what the structured selector gives: the
    string parses, and a label set satisfies its terms exactly when it
    satisfies every [matchLabels] pair and every [matchExpressions] element
    (In, NotIn, Exists, DoesNotExist); so a pod list filtered by the string
    holds exactly the pods that satisfy the structured selector.  The
    selectors are those the API accepts: non-empty keys, keys and values free
    of the grammar's symbols, a value for [In] and [NotIn]. *)
Theorem selector_string_is_faithful (items : list Deployment) (name label : string) :
  (∀ d, d ∈ items → validSelector (d_Selector d) = true) →
  collectDeployments items !! name = Some label →
  ∃ d,
    d ∈ items ∧ d_Name d = name
    ∧ label = FormatLabelSelector (d_Selector d)
    ∧ (∀ labels,
         selectorStringMatches label labels
         = Some (LabelSelectorMatches (d_Selector d) labels))
    ∧ (∀ c, Fake.c_Budget c ≠ O →
         (Fake.podsList label c).1
         = inr (List.filter (λ p, LabelSelectorMatches (d_Selector d) (pod_Labels p))
                  (Fake.c_Pods c))).
Proof.
  intros Hvalid (d & Hd & Hn & ->)%collectDeployments_lookup.
  exists d. split; [done|]. split; [done|]. split; [done|].
  pose proof (parseSelector_FormatLabelSelector _ (Hvalid d Hd)) as Hparse.
  split.
  - intros labels. unfold selectorStringMatches.
    by rewrite Hparse, requirementsOf_matches.
  - intros c Hc. unfold Fake.podsList. destruct (Fake.c_Budget c); [done|].
    rewrite Hparse. simpl. f_equal.
    induction (Fake.c_Pods c) as [|p l IH]; simpl; [done|].
    by rewrite requirementsOf_matches, IH.
Qed.

Lemma selector_string_is_faithful_witness :
  let sel := {| MatchLabels := {[ "app" := "db" ]};
                MatchExpressions := [{| Key := "tier"; Operator := LabelSelectorOpIn;
                                        Values := ["primary"; "replica"] |}] |} in
  let items := [{| d_Name := "database"; d_Namespace := "prod"; d_Selector := sel |}] in
  ∃ d,
    d ∈ items ∧ d_Name d = "database"
    ∧ "app=db,tier in (primary,replica)" = FormatLabelSelector (d_Selector d)
    ∧ (∀ labels,
         selectorStringMatches "app=db,tier in (primary,replica)" labels
         = Some (LabelSelectorMatches (d_Selector d) labels))
    ∧ (∀ c, Fake.c_Budget c ≠ O →
         (Fake.podsList "app=db,tier in (primary,replica)" c).1
         = inr (List.filter (λ p, LabelSelectorMatches (d_Selector d) (pod_Labels p))
                  (Fake.c_Pods c))).
Proof.
  intros sel items.
  refine (selector_string_is_faithful items "database" "app=db,tier in (primary,replica)" _ _).
  - intros d Hd. apply list_elem_of_singleton in Hd as ->. reflexivity.
  - reflexivity.
Defined.

(** * Further properties of the run *)

Section FailStop.
Context {W : Type}.
Implicit Types (k : Clientset W) (r : Run W) (w : W) (output : DeploymentDetails).

Lemma failStop_andThen r (rest : DeploymentDetails → W → Run W) :
  failStop r → (∀ o w, failStop (rest o w)) → failStop (andThen r rest).
Proof.
  intros Hr Hrest. unfold andThen. destruct (err r) eqn:E; [done|].
  unfold failStop in Hr. rewrite E in Hr.
  specialize (Hrest (ret r) (final r)). unfold failStop in *. simpl.
  destruct (err (rest (ret r) (final r))).
  - destruct Hrest as (cs & c & -> & Hcs & Hc). exists (calls r ++ cs), c.
    split; [by rewrite app_assoc|]. split; [by apply Forall_app|done].
  - by apply Forall_app.
Qed.

Lemma failStop_logCall (c : Call) r :
  callFailed c = false → failStop r → failStop (logCall c r).
Proof.
  intros Hc Hr. unfold failStop in *. simpl. destruct (err r).
  - destruct Hr as (cs & c' & -> & Hcs & Hc'). exists (c :: cs), c'.
    split; [done|]. split; [by constructor|done].
  - by constructor.
Qed.

Lemma failStop_fail (c : Call) output msg w :
  callFailed c = true → failStop (logCall c (fail output msg w)).
Proof. intros Hc. unfold failStop. simpl. by exists [], c. Qed.

Lemma patchPod_failStop k name pod output w : failStop (patchPod k name pod output w).
Proof.
  rewrite patchPod_unfold. unfold failStop. simpl.
  destruct (DeploymentsPatch k _ _ _ _).1 as [msg|] eqn:E.
  - eexists [_], _. split; [done|]. split; [by repeat constructor|done].
  - by repeat constructor.
Qed.

Lemma rangePods_failStop k name items output w :
  failStop (rangePods k name items output w).
Proof.
  revert output w. induction items as [|pod items IH]; intros output w; simpl.
  - by constructor.
  - apply failStop_andThen; [apply patchPod_failStop|done].
Qed.

Lemma redeployOne_failStop k name label output w :
  failStop (redeployOne k name label output w).
Proof.
  rewrite redeployOne_unfold. destruct (PodsList k label w).1 as [msg|items].
  - by apply failStop_fail.
  - apply failStop_logCall; [done|]. apply rangePods_failStop.
Qed.

Lemma rangeDeployments_failStop k entries output w :
  failStop (rangeDeployments k entries output w).
Proof.
  revert output w. induction entries as [|[name label] entries IH]; intros output w; simpl.
  - by constructor.
  - apply failStop_andThen; [apply redeployOne_failStop|done].
Qed.

Lemma redeployDatabasePods_failStop range k w :
  failStop (redeployDatabasePods range k w).
Proof.
  rewrite redeployDatabasePods_unfold. destruct (DeploymentsList k w).1 as [msg|items].
  - by apply failStop_fail.
  - apply failStop_logCall; [done|]. apply rangeDeployments_failStop.
Qed.

End FailStop.

(** X1: the log of a run stops at the first API call that fails.  A run that
    returns no error has made no failed call; a run that returns an error
    has made exactly one, its last: the function neither goes on after a
    failure nor reports an error it did not get from a call. *)
Theorem log_stops_at_first_failure {W} (range : MapRange) (k : Clientset W) (w : W) :
  let r := redeployDatabasePods range k w in
  (err r = None ↔ Forall (λ c, callFailed c = false) (calls r))
  ∧ (err r ≠ None ↔
       ∃ cs c, calls r = cs ++ [c]
               ∧ Forall (λ c, callFailed c = false) cs ∧ callFailed c = true).
Proof.
  intros r. pose proof (redeployDatabasePods_failStop range k w) as H.
  fold r in H. unfold failStop in H. destruct (err r) as [e|] eqn:E.
  - split.
    + split; [done|]. intros Hall. destruct H as (cs & c & Hc & _ & Hf).
      rewrite Hc in Hall. apply Forall_app in Hall as [_ Hall].
      apply Forall_inv in Hall. simpl in Hall. congruence.
    + split; [by intros _|done].
  - split; [done|]. split; [done|].
    intros (cs & c & Hc & _ & Hf). rewrite Hc in H.
    apply Forall_app in H as [_ H]. apply Forall_inv in H. simpl in H. congruence.
Qed.

Section Landed.
Context {W : Type}.
Implicit Types (k : Clientset W) (r : Run W) (w : W) (output : DeploymentDetails).

Lemma landedPatches_app (a b : list Call) :
  landedPatches (a ++ b) = landedPatches a ++ landedPatches b.
Proof. apply omap_app. Qed.

Lemma tracksLanded_andThen output r (rest : DeploymentDetails → W → Run W) :
  tracksLanded output r → (∀ o w, tracksLanded o (rest o w)) →
  tracksLanded output (andThen r rest).
Proof.
  intros Hr Hrest. unfold andThen. destruct (err r); [done|].
  unfold tracksLanded in *. simpl.
  by rewrite Hrest, Hr, landedPatches_app, fmap_app, app_assoc.
Qed.

Lemma patchPod_tracksLanded k name pod output w :
  tracksLanded output (patchPod k name pod output w).
Proof.
  rewrite patchPod_unfold. unfold tracksLanded, recordedDocuments, landedPatches. simpl.
  destruct (DeploymentsPatch k _ _ _ _).1 as [msg|]; simpl.
  - by rewrite app_nil_r.
  - by rewrite fmap_app.
Qed.

Lemma rangePods_tracksLanded k name items output w :
  tracksLanded output (rangePods k name items output w).
Proof.
  revert output w. induction items as [|pod items IH]; intros output w; simpl.
  - unfold tracksLanded. simpl. by rewrite app_nil_r.
  - apply tracksLanded_andThen; [apply patchPod_tracksLanded|done].
Qed.

Lemma redeployOne_tracksLanded k name label output w :
  tracksLanded output (redeployOne k name label output w).
Proof.
  rewrite redeployOne_unfold. destruct (PodsList k label w).1 as [msg|items].
  - unfold tracksLanded. simpl. by rewrite app_nil_r.
  - pose proof (rangePods_tracksLanded k name items
                  {| dd_Name := name; dd_Pods := dd_Pods output |} (PodsList k label w).2) as H.
    unfold tracksLanded, landedPatches in *. simpl. exact H.
Qed.

Lemma rangeDeployments_tracksLanded k entries output w :
  tracksLanded output (rangeDeployments k entries output w).
Proof.
  revert output w. induction entries as [|[name label] entries IH]; intros output w; simpl.
  - unfold tracksLanded. simpl. by rewrite app_nil_r.
  - apply tracksLanded_andThen; [apply redeployOne_tracksLanded|done].
Qed.

Lemma redeployDatabasePods_tracksLanded range k w :
  recordedDocuments (ret (redeployDatabasePods range k w))
  = (landedPatches (calls (redeployDatabasePods range k w))).*2.
Proof.
  rewrite redeployDatabasePods_unfold.
  destruct (DeploymentsList k w).1 as [msg|items]; [done|].
  pose proof (rangeDeployments_tracksLanded k (range (collectDeployments items))
                zeroDeploymentDetails (DeploymentsList k w).2) as H.
  unfold tracksLanded, landedPatches in *. simpl. exact H.
Qed.

End Landed.

(** X2: whatever the outcome of a run, the [Pods] it returns are an exact
    record of the patches that landed: one [PodDetails] per patch call that
    came back without error, in the order of the calls, whose [RestartedOn]
    is the timestamp of that call's document.  This holds of the output
    returned next to an error as well. *)
Theorem output_records_landed_patches {W} (range : MapRange) (k : Clientset W) (w : W) :
  let r := redeployDatabasePods range k w in
  recordedDocuments (ret r) = (landedPatches (calls r)).*2
  ∧ length (dd_Pods (ret r)) = length (landedPatches (calls r)).
Proof.
  intros r.
  pose proof (redeployDatabasePods_tracksLanded range k w) as H. fold r in H.
  split; [exact H|].
  apply (f_equal length) in H. unfold recordedDocuments in H.
  by rewrite !length_fmap in H.
Qed.

Lemma clockPaired_app (a b : list Call) :
  clockPaired a = true → clockPaired b = true → clockPaired (a ++ b) = true.
Proof.
  intros Ha Hb. remember (length a) as n eqn:Hn.
  revert a Ha Hn. induction (lt_wf n) as [n _ IH]. intros a Ha ->.
  destruct a as [|c a]; [done|].
  destruct c as [r|label r|t|ns name data r]; simpl in *.
  - apply (IH (length a)); [lia|done|done].
  - apply (IH (length a)); [lia|done|done].
  - destruct a as [|c' a]; [done|].
    destruct c' as [r'|label' r'|t'|ns name data r']; try done. simpl in *.
    apply andb_true_iff in Ha as [-> Ha]. simpl.
    apply (IH (length a)); [lia|done|done].
  - done.
Qed.

Section Paired.
Context {W : Type}.
Implicit Types (k : Clientset W) (r : Run W) (w : W) (output : DeploymentDetails).

Lemma clockPaired_andThen r (rest : DeploymentDetails → W → Run W) :
  clockPaired (calls r) = true → (∀ o w, clockPaired (calls (rest o w)) = true) →
  clockPaired (calls (andThen r rest)) = true.
Proof.
  intros Hr Hrest. unfold andThen. destruct (err r); [done|]. simpl.
  by apply clockPaired_app.
Qed.

Lemma rangePods_clockPaired k name items output w :
  clockPaired (calls (rangePods k name items output w)) = true.
Proof.
  revert output w. induction items as [|pod items IH]; intros output w; simpl; [done|].
  apply clockPaired_andThen; [|done].
  rewrite patchPod_unfold. cbv zeta. cbn [calls clockPaired]. by rewrite String.eqb_refl.
Qed.

Lemma rangeDeployments_clockPaired k entries output w :
  clockPaired (calls (rangeDeployments k entries output w)) = true.
Proof.
  revert output w. induction entries as [|[name label] entries IH]; intros output w; simpl; [done|].
  apply clockPaired_andThen; [|done].
  rewrite redeployOne_unfold. simpl.
  destruct (PodsList k label w).1 as [msg|items]; [done|]. apply rangePods_clockPaired.
Qed.

End Paired.

(** X3: in the log of any run, every reading of the clock is followed at
    once by a patch call whose document carries that reading, and no patch
    call is made without such a reading right before it: the timestamp of a
    patch is read afresh for that patch, also in a run that ends in an
    error. *)
Theorem every_patch_has_a_fresh_timestamp {W} (range : MapRange) (k : Clientset W) (w : W) :
  let r := redeployDatabasePods range k w in
  clockPaired (calls r) = true
  ∧ (patchCalls (calls r)).*2 = (λ t, patchData (FormatRFC3339 t)) <$> nowCalls (calls r).
Proof.
  intros r.
  assert (H : clockPaired (calls r) = true).
  { subst r. rewrite redeployDatabasePods_unfold. simpl.
    destruct (DeploymentsList k w).1 as [msg|items]; [done|].
    apply rangeDeployments_clockPaired. }
  split; [exact H|]. revert H. generalize (calls r) as cs. clear.
  intros cs. remember (length cs) as n eqn:Hn.
  revert cs Hn. induction (lt_wf n) as [n _ IH]. intros cs -> H.
  destruct cs as [|c cs]; [done|].
  destruct c as [r|label r|t|ns name data r]; simpl in *.
  - apply (IH (length cs)); [lia|done|done].
  - apply (IH (length cs)); [lia|done|done].
  - destruct cs as [|c' cs]; [done|].
    destruct c' as [r'|label' r'|t'|ns name data r']; try done. simpl in *.
    apply andb_true_iff in H as [Hd H]. apply String.eqb_eq in Hd as ->.
    unfold patchCalls, nowCalls in *. simpl. f_equal.
    apply (IH (length cs)); [lia|done|done].
  - done.
Qed.

Section Targets.
Context {W : Type}.
Implicit Types (k : Clientset W) (r : Run W) (w : W) (output : DeploymentDetails).

Lemma rangePods_podsListCalls k name items output w :
  podsListCalls (calls (rangePods k name items output w)) = [].
Proof.
  revert output w. induction items as [|pod items IH]; intros output w; simpl; [done|].
  unfold andThen. destruct (err (patchPod k name pod output w)).
  - by rewrite patchPod_unfold.
  - simpl. unfold podsListCalls in *. rewrite omap_app, IH, patchPod_unfold. done.
Qed.


Lemma allListed_app (a b : list Call) : allListed (a ++ b) = allListed a ++ allListed b.
Proof. unfold allListed, podsListCalls. by rewrite omap_app, !fmap_app, concat_app. Qed.



Lemma rangeDeployments_podsList k entries output w label a :
  CallPodsList label a ∈ calls (rangeDeployments k entries output w) →
  label ∈ entries.*2.
Proof.
  revert output w. induction entries as [|[name l] entries IH]; intros output w; simpl.
  - intros H. by apply elem_of_nil in H.
  - intros [H|H]%andThen_calls.
    + rewrite redeployOne_unfold in H. simpl in H.
      apply elem_of_cons in H as [H|H].
      * injection H as -> _. apply elem_of_cons. by left.
      * exfalso. destruct (PodsList k l w).1 as [msg|items]; simpl in H.
        -- by apply elem_of_nil in H.
        -- assert (Hin : (label, a) ∈ podsListCalls (calls (rangePods k name items
                     {| dd_Name := name; dd_Pods := dd_Pods output |} (PodsList k l w).2))).
           { unfold podsListCalls. apply list_elem_of_omap.
             by exists (CallPodsList label a). }
           rewrite rangePods_podsListCalls in Hin. by apply elem_of_nil in Hin.
    + apply elem_of_cons. right. by eapply IH.
Qed.

End Targets.

(** The entries a valid visiting order meets are entries of the map. *)
Lemma rangeOrder_entry (range : MapRange) (m : gmap string string) (name label : string) :
  rangeOrder range → (name, label) ∈ range m → m !! name = Some label.
Proof. intros Hr H. rewrite (Hr m) in H. by apply elem_of_map_to_list. Qed.

(** X4: after the Deployment list, every call of a run is for a matched
    Deployment: a pod-list call sends the selector string of a listed
    Deployment whose name contains "database", and a patch call names such a
    Deployment.  No other Deployment is ever patched or has its pods
    listed. *)
Theorem calls_only_for_matched_deployments {W} (range : MapRange) (k : Clientset W)
    (w : W) (c : Call) :
  rangeOrder range →
  c ∈ calls (redeployDatabasePods range k w) →
  match c with
  | CallDeploymentsList a => a = (DeploymentsList k w).1
  | CallPodsList label _ =>
      ∃ items d, (DeploymentsList k w).1 = inr items ∧ d ∈ items
                 ∧ Contains (d_Name d) "database" = true
                 ∧ label = FormatLabelSelector (d_Selector d)
  | CallDeploymentsPatch _ name _ _ =>
      ∃ items d, (DeploymentsList k w).1 = inr items ∧ d ∈ items
                 ∧ Contains (d_Name d) "database" = true
                 ∧ name = d_Name d
  | CallNow _ => True
  end.
Proof.
  intros Hr. rewrite redeployDatabasePods_unfold. simpl.
  intros [->|H]%elem_of_cons; [done|].
  destruct (DeploymentsList k w).1 as [msg|items]; simpl in H.
  { by apply elem_of_nil in H. }
  assert (Hentry : ∀ name label, (name, label) ∈ range (collectDeployments items) →
            ∃ d, d ∈ items ∧ Contains (d_Name d) "database" = true
                 ∧ name = d_Name d ∧ label = FormatLabelSelector (d_Selector d)).
  { intros name label Hin%(rangeOrder_entry _ _ _ _ Hr).
    pose proof (proj1 (collectDeployments_dom items name) (mk_is_Some _ _ Hin)) as [HC _].
    apply collectDeployments_lookup in Hin as (d & Hd & <- & ->). by exists d. }
  destruct c as [a|label a|t|ns name data e]; [| | done |].
  - exfalso. revert H. generalize (range (collectDeployments items)) zeroDeploymentDetails
      (DeploymentsList k w).2. clear. intros entries.
    induction entries as [|[name label] entries IH]; intros output w; simpl.
    + intros H. by apply elem_of_nil in H.
    + intros [H|H]%andThen_calls; [|by eapply IH].
      rewrite redeployOne_unfold in H. simpl in H.
      apply elem_of_cons in H as [H|H]; [done|].
      destruct (PodsList k label w).1 as [msg|pods]; simpl in H.
      * by apply elem_of_nil in H.
      * revert H. generalize {| dd_Name := name; dd_Pods := dd_Pods output |}
          (PodsList k label w).2. clear. intros output w. revert output w.
        induction pods as [|pod pods IH]; intros output w; simpl.
        -- intros H. by apply elem_of_nil in H.
        -- intros [H|H]%andThen_calls; [|by eapply IH].
           rewrite patchPod_unfold in H. simpl in H.
           apply elem_of_cons in H as [H|H]; [done|].
           by apply list_elem_of_singleton in H.
  - apply rangeDeployments_podsList in H.
    apply list_elem_of_fmap in H as ([name l] & -> & Hin).
    apply Hentry in Hin as (d & ? & ? & ? & ?). by exists items, d.
  - apply rangeDeployments_patch in H as [H _].
    apply list_elem_of_fmap in H as ([n l] & -> & Hin).
    apply Hentry in Hin as (d & ? & ? & ? & ?). by exists items, d.
Qed.

Lemma calls_only_for_matched_deployments_witness :
  let c := CallDeploymentsPatch "prod" "database" (patchData "2024-01-01T00:00:01Z") None in
  c ∈ calls (redeployDatabasePods map_to_list Fake.clientset Fake.twoPods)
  ∧ ∃ items d, Fake.c_Deployments Fake.twoPods = items ∧ d ∈ items
               ∧ Contains (d_Name d) "database" = true ∧ "database" = d_Name d.
Proof.
  intros c.
  assert (H : c ∈ calls (redeployDatabasePods map_to_list Fake.clientset Fake.twoPods)).
  { apply list_elem_of_In. vm_compute. tauto. }
  split; [exact H|].
  destruct (calls_only_for_matched_deployments map_to_list Fake.clientset Fake.twoPods c
              rangeOrder_map_to_list H) as (items & d & E & Hd & HC & Hn).
  injection E as <-. by exists (Fake.c_Deployments Fake.twoPods), d.
Defined.



(** No listed name contains "database": the map stays empty. *)
Lemma collectDeployments_no_match (items : list Deployment) :
  (∀ d, d ∈ items → Contains (d_Name d) "database" = false) →
  collectDeployments items = ∅.
Proof.
  intros Hno. apply map_eq. intros name. rewrite lookup_empty.
  destruct (collectDeployments items !! name) as [label|] eqn:E; [|done].
  pose proof (proj1 (collectDeployments_dom items name) (mk_is_Some _ _ E))
    as [HC (d & Hd & <-)].
  rewrite (Hno d Hd) in HC. done.
Qed.

Lemma redeployDatabasePods_no_match {W} (range : MapRange) (k : Clientset W) (w : W)
    (items : list Deployment) :
  rangeOrder range →
  (DeploymentsList k w).1 = inr items →
  (∀ d, d ∈ items → Contains (d_Name d) "database" = false) →
  redeployDatabasePods range k w
  = {| ret := zeroDeploymentDetails; err := None;
       calls := [CallDeploymentsList (inr items)]; final := (DeploymentsList k w).2 |}.
Proof.
  intros Hr Hl Hno. rewrite redeployDatabasePods_unfold, Hl.
  rewrite (collectDeployments_no_match items Hno).
  assert (E : range ∅ = []).
  { apply Permutation_nil_r. rewrite (Hr ∅). by rewrite map_to_list_empty. }
  by rewrite E.
Qed.

(** X6: when the Deployment list succeeds and no listed name contains
    "database", the list call is the only call of the run, and the run
    returns Go's zero [DeploymentDetails] without error: nothing is listed,
    nothing is patched, the clock is not read. *)
Theorem nothing_matched_nothing_called {W} (range : MapRange) (k : Clientset W) (w : W)
    (items : list Deployment) :
  rangeOrder range →
  (DeploymentsList k w).1 = inr items →
  (∀ d, d ∈ items → Contains (d_Name d) "database" = false) →
  let r := redeployDatabasePods range k w in
  err r = None
  ∧ ret r = zeroDeploymentDetails
  ∧ calls r = [CallDeploymentsList (inr items)]
  ∧ final r = (DeploymentsList k w).2.
Proof.
  intros Hr Hl Hno r. subst r.
  by rewrite (redeployDatabasePods_no_match range k w items Hr Hl Hno).
Qed.

Lemma nothing_matched_nothing_called_witness :
  let r := redeployDatabasePods map_to_list Fake.clientset FakeHost.noMatch in
  err r = None
  ∧ ret r = zeroDeploymentDetails
  ∧ calls r = [CallDeploymentsList (inr (Fake.c_Deployments FakeHost.noMatch))]
  ∧ final r = Fake.spend FakeHost.noMatch.
Proof.
  refine (nothing_matched_nothing_called map_to_list Fake.clientset FakeHost.noMatch
            (Fake.c_Deployments FakeHost.noMatch) rangeOrder_map_to_list eq_refl _).
  intros d Hd. simpl in Hd.
  apply elem_of_cons in Hd as [->|Hd]; [reflexivity|].
  apply list_elem_of_singleton in Hd as ->. reflexivity.
Defined.








(** * Properties of the entry point and the client construction *)

Section MainFacts.
Context {W Other RestConfig : Type}.
Implicit Types (h : Host W Other RestConfig) (w : W).

Lemma NewK8sClient_unfold h :
  NewK8sClient h
  = ([(kubeconfigDefault h).1],
     match CommandLine h with
     | inl code => Exited code
     | inr given => Returned (loadClient h (default (kubeconfigDefault h).2 given))
     end).
Proof.
  unfold NewK8sClient. destruct (kubeconfigDefault h) as [record def].
  by destruct (CommandLine h).
Qed.

(** What [main] does once the command line is accepted. *)
Lemma main_unfold range h w given :
  CommandLine h = inr given →
  main range h w
  = match loadClient h (default (kubeconfigDefault h).2 given) with
    | inl e =>
        {| m_Logs := [(kubeconfigDefault h).1;
                      logError [("error", e)] "failed to initialize NewK8sClient()"];
           m_Exit := 1; m_Calls := []; m_Final := w |}
    | inr k8sClient =>
        let created :=
          logInfo [("context", k8sContext)]
            "k8s client created and context sucessfully loaded" in
        let r := redeployDatabasePods range k8sClient w in
        match err r with
        | Some e =>
            {| m_Logs := [(kubeconfigDefault h).1; created;
                          logError [("error", e)] "failed to redeploy pods"];
               m_Exit := 1; m_Calls := calls r; m_Final := final r |}
        | None =>
            {| m_Logs := [(kubeconfigDefault h).1; created;
                          logInfo [("deployment", dd_Name (ret r))]
                            "sucessfully patched deployment"]
                         ++ map logPod (dd_Pods (ret r));
               m_Exit := 0; m_Calls := calls r; m_Final := final r |}
        end
    end.
Proof.
  intros Hc. unfold main. rewrite NewK8sClient_unfold, Hc.
  destruct (loadClient h _) as [e|client]; [done|]. simpl.
  by destruct (err (redeployDatabasePods range client w)).
Qed.

Lemma main_exited range h w code :
  CommandLine h = inl code →
  main range h w
  = {| m_Logs := [(kubeconfigDefault h).1]; m_Exit := code; m_Calls := []; m_Final := w |}.
Proof. intros Hc. unfold main. by rewrite NewK8sClient_unfold, Hc. Qed.

Lemma podRecords_kubeconfigDefault h : podRecords [(kubeconfigDefault h).1] = [].
Proof. unfold kubeconfigDefault. by destruct (String.eqb (HomeDir h) EmptyString). Qed.

Lemma podRecords_app (a b : list LogRecord) :
  podRecords (a ++ b) = podRecords a ++ podRecords b.
Proof. apply List.filter_app. Qed.

Lemma podRecords_logPod (pods : list PodDetails) :
  podRecords (map logPod pods) = map logPod pods.
Proof. induction pods as [|dd pods IH]; [done|]. simpl. by rewrite IH. Qed.

End MainFacts.

Lemma landedPatches_all (cs : list Call) :
  Forall (λ c, callFailed c = false) cs → landedPatches cs = patchCalls cs.
Proof.
  induction 1 as [|c cs Hc _ IH]; [done|].
  unfold landedPatches, patchCalls in *.
  destruct c as [a|label a|t|ns name data [e|]]; simpl in *;
    first [exact IH | f_equal; exact IH | done].
Qed.

(** X8: [NewK8sClient] returns a client exactly when the command line is
    accepted, the kubeconfig it names (the [-kubeconfig] value, or else the
    default under the home directory) loads, the loaded kubeconfig has a
    context whose name is the constant [k8sContext], that is, the empty
    name, and a client can be built from the kubeconfig with that context
    made current; the client returned is that one. *)
Theorem client_needs_the_compiled_in_context {W Other RestConfig : Type}
    (h : Host W Other RestConfig) (client : Clientset W) :
  (NewK8sClient h).2 = Returned (inr client)
  ↔ ∃ given config K8sConfig,
      CommandLine h = inr given
      ∧ LoadFromFile h (default (kubeconfigDefault h).2 given) = inr config
      ∧ is_Some (Contexts config !! EmptyString)
      ∧ ClientConfig h {| Contexts := Contexts config; CurrentContext := EmptyString;
                          cfg_Other := cfg_Other config |} = inr K8sConfig
      ∧ NewForConfig h K8sConfig = inr client.
Proof.
  rewrite NewK8sClient_unfold. simpl. split.
  - destruct (CommandLine h) as [code|given]; [done|]. intros [= H].
    unfold loadClient in H. exists given.
    destruct (LoadFromFile h _) as [e|config]; [done|]. exists config.
    unfold k8sContext in H.
    destruct (Contexts config !! EmptyString) as [ctx|] eqn:Hctx; [|done].
    unfold selectContext, k8sContext in H.
    destruct (ClientConfig h _) as [e|K8sConfig]; [done|]. exists K8sConfig.
    destruct (NewForConfig h K8sConfig) as [e|client']; [done|].
    injection H as ->. by repeat split.
  - intros (given & config & K8sConfig & -> & Hl & [ctx Hctx] & Hc & Hn).
    unfold loadClient, selectContext, k8sContext. by rewrite Hl, Hctx, Hc, Hn.
Qed.

(** X9: once the command line is accepted, [main] ends with status 0 or 1.
    Without a client it makes no API call and leaves the cluster as it was;
    with a client its calls are those of [redeployDatabasePods], and the
    status is 0 exactly when that run returned no error.  A status of 0
    therefore means that no API call failed, and a status of 1 after some
    call means that the last call failed. *)
Theorem exit_status {W Other RestConfig : Type} (range : MapRange)
    (h : Host W Other RestConfig) (w : W) (given : option string) :
  CommandLine h = inr given →
  let m := main range h w in
  (m_Exit m = 0 ∨ m_Exit m = 1)
  ∧ match loadClient h (default (kubeconfigDefault h).2 given) with
    | inl _ => m_Exit m = 1 ∧ m_Calls m = [] ∧ m_Final m = w
    | inr client =>
        let r := redeployDatabasePods range client w in
        m_Calls m = calls r ∧ m_Final m = final r ∧ (m_Exit m = 0 ↔ err r = None)
    end
  ∧ (m_Exit m = 0 → Forall (λ c, callFailed c = false) (m_Calls m))
  ∧ (m_Exit m = 1 → m_Calls m ≠ [] →
     ∃ cs c, m_Calls m = cs ++ [c] ∧ callFailed c = true).
Proof.
  intros Hc m. subst m. rewrite (main_unfold range h w given Hc).
  destruct (loadClient h _) as [e|client].
  { simpl. split; [by right|]. split; [done|]. split; [done|]. done. }
  cbv zeta. pose proof (redeployDatabasePods_failStop range client w) as Hfs.
  unfold failStop in Hfs.
  destruct (err (redeployDatabasePods range client w)) as [e|] eqn:E; simpl.
  - split; [by right|]. split; [by repeat split|]. split; [done|].
    intros _ _. destruct Hfs as (cs & c & ? & _ & ?). by exists cs, c.
  - split; [by left|]. split; [by repeat split|]. split; [done|]. done.
Qed.

Lemma exit_status_witness :
  let m := main map_to_list (FakeHost.host [EmptyString]) (Fake.endToEnd 3) in
  m_Exit m = 1
  ∧ ∃ cs c, m_Calls m = cs ++ [c] ∧ callFailed c = true.
Proof.
  intros m.
  destruct (exit_status map_to_list (FakeHost.host [EmptyString]) (Fake.endToEnd 3) None eq_refl)
    as (_ & _ & _ & H).
  split; [reflexivity|]. apply H; [reflexivity|]. vm_compute. discriminate.
Defined.

Lemma kubeconfigDefault_message {W Other RestConfig : Type} (h : Host W Other RestConfig) :
  lr_Message (kubeconfigDefault h).1 ≠ "sucessfully patched deployment".
Proof. unfold kubeconfigDefault. by destruct (String.eqb (HomeDir h) EmptyString). Qed.

(** X10: a run of [main] that ends with a status other than 0 has reported
    no Deployment as patched and no pod as redeployed, whatever patches had
    landed by then: on failure the output returned by [redeployDatabasePods]
    is dropped. *)
Theorem failure_reports_no_progress {W Other RestConfig : Type} (range : MapRange)
    (h : Host W Other RestConfig) (w : W) :
  let m := main range h w in
  m_Exit m ≠ 0 →
  podRecords (m_Logs m) = []
  ∧ Forall (λ lr, lr_Message lr ≠ "sucessfully patched deployment") (m_Logs m).
Proof.
  intros m. subst m. destruct (CommandLine h) as [code|given] eqn:Hc.
  - rewrite (main_exited range h w code Hc). simpl. intros _.
    split; [apply podRecords_kubeconfigDefault|].
    constructor; [apply kubeconfigDefault_message|constructor].
  - rewrite (main_unfold range h w given Hc).
    destruct (loadClient h _) as [e|client].
    + simpl. intros _. split.
      * change (podRecords ([(kubeconfigDefault h).1] ++ [logError [("error", e)]
                  "failed to initialize NewK8sClient()"]) = []).
        by rewrite podRecords_app, podRecords_kubeconfigDefault.
      * constructor; [apply kubeconfigDefault_message|]. by repeat constructor.
    + cbv zeta. destruct (err (redeployDatabasePods range client w)) as [e|]; simpl.
      * intros _. split.
        -- change (podRecords ([(kubeconfigDefault h).1]
                     ++ [logInfo [("context", k8sContext)]
                           "k8s client created and context sucessfully loaded";
                         logError [("error", e)] "failed to redeploy pods"]) = []).
           by rewrite podRecords_app, podRecords_kubeconfigDefault.
        -- constructor; [apply kubeconfigDefault_message|]. by repeat constructor.
      * done.
Qed.

Lemma failure_reports_no_progress_witness :
  let m := main map_to_list (FakeHost.host [EmptyString]) (Fake.endToEnd 3) in
  m_Exit m = 1
  ∧ landedPatches (m_Calls m)
    = [("prod", "database-cache", patchData "2024-01-01T00:00:00Z")]
  ∧ podRecords (m_Logs m) = []
  ∧ Forall (λ lr, lr_Message lr ≠ "sucessfully patched deployment") (m_Logs m).
Proof.
  intros m. split; [reflexivity|]. split; [reflexivity|].
  apply (failure_reports_no_progress map_to_list (FakeHost.host [EmptyString])
           (Fake.endToEnd 3)).
  vm_compute. discriminate.
Defined.

(** X11: a run of [main] that ends with status 0 has reported one redeployed
    pod per patch call it made, in the order of the calls, each report
    carrying as [restarted_on] the timestamp of that call's document; and
    every one of those patch calls came back without error. *)
Theorem success_reports_every_patch {W Other RestConfig : Type} (range : MapRange)
    (h : Host W Other RestConfig) (w : W) :
  let m := main range h w in
  m_Exit m = 0 →
  ∃ pods,
    podRecords (m_Logs m) = logPod <$> pods
    ∧ (λ dd, patchData (pd_RestartedOn dd)) <$> pods = (patchCalls (m_Calls m)).*2
    ∧ landedPatches (m_Calls m) = patchCalls (m_Calls m).
Proof.
  intros m. subst m. destruct (CommandLine h) as [code|given] eqn:Hc.
  - rewrite (main_exited range h w code Hc). simpl. intros _. exists [].
    split; [apply podRecords_kubeconfigDefault|done].
  - rewrite (main_unfold range h w given Hc).
    destruct (loadClient h _) as [e|client]; [done|]. cbv zeta.
    pose proof (redeployDatabasePods_failStop range client w) as Hfs.
    pose proof (redeployDatabasePods_tracksLanded range client w) as Hl.
    unfold failStop in Hfs.
    destruct (err (redeployDatabasePods range client w)) as [e|]; [done|]. simpl.
    intros _. exists (dd_Pods (ret (redeployDatabasePods range client w))).
    rewrite (landedPatches_all _ Hfs) in Hl. split; [|split].
    + change (podRecords ([(kubeconfigDefault h).1]
                ++ [logInfo [("context", k8sContext)]
                      "k8s client created and context sucessfully loaded";
                    logInfo [("deployment", dd_Name (ret (redeployDatabasePods range client w)))]
                      "sucessfully patched deployment"]
                ++ map logPod (dd_Pods (ret (redeployDatabasePods range client w))))
              = logPod <$> dd_Pods (ret (redeployDatabasePods range client w))).
      rewrite !podRecords_app, podRecords_kubeconfigDefault, podRecords_logPod. done.
    + exact Hl.
    + by apply landedPatches_all.
Qed.

Lemma success_reports_every_patch_witness :
  let m := main map_to_list (FakeHost.host [EmptyString]) (Fake.endToEnd 100) in
  ∃ pods,
    podRecords (m_Logs m) = logPod <$> pods
    ∧ (λ dd, patchData (pd_RestartedOn dd)) <$> pods = (patchCalls (m_Calls m)).*2
    ∧ landedPatches (m_Calls m) = patchCalls (m_Calls m).
Proof.
  exact (success_reports_every_patch map_to_list (FakeHost.host [EmptyString])
           (Fake.endToEnd 100) eq_refl).
Defined.

(** X12: when a client is built and the cluster has no Deployment whose name
    contains "database", [main] still logs "sucessfully patched deployment",
    with an empty deployment name, reports no pod, and ends with status 0
    after the one list call. *)
Theorem nothing_matched_is_reported_as_success {W Other RestConfig : Type}
    (range : MapRange) (h : Host W Other RestConfig) (w : W) (given : option string)
    (client : Clientset W) (items : list Deployment) :
  rangeOrder range →
  CommandLine h = inr given →
  loadClient h (default (kubeconfigDefault h).2 given) = inr client →
  (DeploymentsList client w).1 = inr items →
  (∀ d, d ∈ items → Contains (d_Name d) "database" = false) →
  let m := main range h w in
  m_Exit m = 0
  ∧ m_Calls m = [CallDeploymentsList (inr items)]
  ∧ m_Logs m
    = [(kubeconfigDefault h).1;
       logInfo [("context", EmptyString)] "k8s client created and context sucessfully loaded";
       logInfo [("deployment", EmptyString)] "sucessfully patched deployment"].
Proof.
  intros Hr Hc Hclient Hl Hno m. subst m.
  rewrite (main_unfold range h w given Hc), Hclient. cbv zeta.
  by rewrite (redeployDatabasePods_no_match range client w items Hr Hl Hno).
Qed.

Lemma nothing_matched_is_reported_as_success_witness :
  let m := main map_to_list (FakeHost.host [EmptyString]) FakeHost.noMatch in
  m_Exit m = 0
  ∧ m_Calls m = [CallDeploymentsList (inr (Fake.c_Deployments FakeHost.noMatch))]
  ∧ m_Logs m
    = [logInfo [] "kubeconfig found in default location: '$HOME/.kube/config'";
       logInfo [("context", EmptyString)] "k8s client created and context sucessfully loaded";
       logInfo [("deployment", EmptyString)] "sucessfully patched deployment"].
Proof.
  refine (nothing_matched_is_reported_as_success map_to_list (FakeHost.host [EmptyString])
            FakeHost.noMatch None Fake.clientset (Fake.c_Deployments FakeHost.noMatch)
            rangeOrder_map_to_list eq_refl eq_refl eq_refl _).
  intros d Hd. simpl in Hd.
  apply elem_of_cons in Hd as [->|Hd]; [reflexivity|].
  apply list_elem_of_singleton in Hd as ->. reflexivity.
Defined.

Section Bounds.
Context {W : Type}.
Implicit Types (k : Clientset W) (r : Run W) (w : W) (output : DeploymentDetails).

Lemma rangePods_patch_count k name items output w :
  (length (patchCalls (calls (rangePods k name items output w))) ≤ length items)%nat.
Proof.
  revert output w. induction items as [|pod items IH]; intros output w; simpl; [done|].
  unfold andThen. destruct (err (patchPod k name pod output w)).
  - rewrite patchPod_unfold. simpl. lia.
  - simpl. rewrite patchCalls_app, length_app, patchPod_unfold. simpl.
    specialize (IH (ret (patchPod k name pod output w)) (final (patchPod k name pod output w))).
    rewrite patchPod_unfold in IH. simpl in IH. lia.
Qed.

Lemma redeployOne_counts k name label output w :
  let r := redeployOne k name label output w in
  (podsListCalls (calls r)).*1 = [label]
  ∧ (length (patchCalls (calls r)) ≤ length (allListed (calls r)))%nat.
Proof.
  intros r. subst r. rewrite redeployOne_unfold.
  destruct (PodsList k label w).1 as [msg|items]; simpl; [done|].
  pose proof (rangePods_podsListCalls k name items
                {| dd_Name := name; dd_Pods := dd_Pods output |} (PodsList k label w).2) as Hp.
  pose proof (rangePods_patch_count k name items
                {| dd_Name := name; dd_Pods := dd_Pods output |} (PodsList k label w).2) as Hc.
  unfold allListed, podsListCalls, patchCalls in *. simpl. rewrite Hp. simpl.
  split; [done|]. rewrite ?length_app. simpl. lia.
Qed.

Lemma rangeDeployments_counts k entries output w :
  let r := rangeDeployments k entries output w in
  (podsListCalls (calls r)).*1 `prefix_of` entries.*2
  ∧ (length (patchCalls (calls r)) ≤ length (allListed (calls r)))%nat.
Proof.
  revert output w. induction entries as [|[name label] entries IH]; intros output w; simpl.
  - split; [apply prefix_nil|done].
  - pose proof (redeployOne_counts k name label output w) as [H1 H2].
    unfold andThen. destruct (err (redeployOne k name label output w)).
    + split; [|done]. rewrite H1. apply prefix_cons, prefix_nil.
    + simpl. destruct (IH (ret (redeployOne k name label output w))
                          (final (redeployOne k name label output w))) as [IH1 IH2].
      unfold podsListCalls in *. rewrite omap_app, fmap_app, H1.
      split; [by apply prefix_cons|].
      rewrite patchCalls_app, allListed_app, !length_app. lia.
Qed.

End Bounds.

Lemma collectDeployments_size (items : list Deployment) :
  (size (collectDeployments items) ≤ length items)%nat.
Proof.
  induction items as [|d items IH] using rev_ind; [done|].
  rewrite collectDeployments_snoc, length_app. simpl. unfold collectDeployment.
  destruct (Contains (d_Name d) "database"); [|lia].
  rewrite map_size_insert. destruct (collectDeployments items !! d_Name d); simpl; lia.
Qed.

(** X13: a run does a bounded amount of work.  Its pod-list calls are made
    for the entries of the map in visiting order, one per entry and none
    twice, so there are at most as many as Deployments were listed; and it
    makes at most one patch call per pod that a pod-list call returned. *)
Theorem work_is_bounded {W} (range : MapRange) (k : Clientset W) (w : W)
    (items : list Deployment) :
  rangeOrder range →
  (DeploymentsList k w).1 = inr items →
  let r := redeployDatabasePods range k w in
  (podsListCalls (calls r)).*1 `prefix_of` (range (collectDeployments items)).*2
  ∧ (length (podsListCalls (calls r)) ≤ length items)%nat
  ∧ (length (patchCalls (calls r)) ≤ length (allListed (calls r)))%nat.
Proof.
  intros Hr Hl r. subst r. rewrite redeployDatabasePods_unfold, Hl.
  pose proof (rangeDeployments_counts k (range (collectDeployments items))
                zeroDeploymentDetails (DeploymentsList k w).2) as [H1 H2].
  set (r := rangeDeployments k (range (collectDeployments items)) zeroDeploymentDetails
              (DeploymentsList k w).2) in *.
  change (podsListCalls (calls (logCall (CallDeploymentsList (inr items)) r)))
    with (podsListCalls (calls r)).
  change (patchCalls (calls (logCall (CallDeploymentsList (inr items)) r)))
    with (patchCalls (calls r)).
  change (allListed (calls (logCall (CallDeploymentsList (inr items)) r)))
    with (allListed (calls r)).
  split; [exact H1|]. split; [|exact H2].
  apply prefix_length in H1. rewrite !length_fmap in H1.
  pose proof (collectDeployments_size items) as Hs.
  rewrite <- (length_map_to_list (collectDeployments items)), <- (Hr _) in Hs. lia.
Qed.

Lemma work_is_bounded_witness :
  let r := redeployDatabasePods map_to_list Fake.clientset (Fake.endToEnd 3) in
  (podsListCalls (calls r)).*1 `prefix_of` ["app=cache"; "app=primary"]
  ∧ (length (podsListCalls (calls r)) ≤ 3)%nat
  ∧ (length (patchCalls (calls r)) ≤ length (allListed (calls r)))%nat.
Proof.
  exact (work_is_bounded map_to_list Fake.clientset (Fake.endToEnd 3)
           (Fake.c_Deployments (Fake.endToEnd 3)) rangeOrder_map_to_list eq_refl).
Defined.
